(** * Loan calculator: the schedule engine [compute_schedule]

    Source: [Loan_Calculator_project/streamlit_app.py].

    The engine works on Python floats.  Its formulas are embedded here over
    the exact rationals [Q]: every [+], [-], [*], [/], [**], [min], [max]
    and comparison of the source is the operation of the same name on [Q],
    and [round(x, 2)] is rounding to the nearest hundredth, ties to the even
    hundredth.  The results below are statements about these formulas; the
    representation error of binary64 is not part of them.  The one place
    where binary64 changes what the code does, and not only the last digits
    of what it computes, is the guard of the annuity division; module
    [Binary64] embeds the payment selection a second time over IEEE doubles
    to examine it.

    Dates are day numbers ([date + timedelta(days=k)] is [+ k]).

    The file also embeds what surrounds the engine: the call the page makes
    from its sidebar widgets, the currency display [inr], and the script of
    the chat page ([streaming chat app/streamlit_groq_chat_app.py]) as a
    transition on its session state. *)

From Stdlib Require Import ZArith QArith Qround Qminmax Qpower Qabs.
From Stdlib Require Import String Ascii.
From Stdlib Require DecimalString DecimalN DecimalPos.
From Stdlib Require Import List Bool Lia Lra Psatz.
From Stdlib Require Import PrimFloat.
From Stdlib Require FloatOps SpecFloat.
Import ListNotations.

Open Scope Q_scope.

(** ** Rounding to two decimals *)

(** Nearest integer, ties to even: what Python's [round] does on the exact
    value of its argument. *)
Definition round_half_even (x : Q) : Z :=
  let f := Qfloor x in
  match Qcompare (x - inject_Z f) (1 # 2) with
  | Lt => f
  | Gt => (f + 1)%Z
  | Eq => if Z.even f then f else (f + 1)%Z
  end.

(** [round(x, 2)] *)
Definition round2 (x : Q) : Q := inject_Z (round_half_even (x * 100)) / 100.

(** ** Data model *)

Inductive Compounding := Monthly | Quarterly | Yearly.

(** The arguments of [compute_schedule]. *)
Record LoanParameters := {
  principal : Q;
  annual_rate_pct : Q;
  years : Z;
  start_date : Z;
  compounding : Compounding;
  flat_interest : bool;
  extra_per_period : Q;
  fees_flat : Q;
  fees_pct : Q;
  insurance_per_period : Q
}.

(** One dictionary appended to [sched]. *)
Record Row := {
  Period : Z;
  Date : Z;
  Payment : Q;
  Principal : Q;
  Interest : Q;
  Extra : Q;
  Insurance : Q;
  Balance : Q;
  Cumulative_Paid : Q
}.

(** The [summary] dictionary. *)
Record Summary := {
  EMI_Payment : Q;
  Total_Interest : Q;
  Total_Extra : Q;
  Total_Insurance : Q;
  Total_Paid : Q;
  Tenure : Z;
  Last_Payment_Date : Z;
  Principal_incl_fees : Q
}.

(** The variables the [for] loop updates. *)
Record LoopState := {
  bal : Q;
  cumulative : Q;
  d : Z;
  sched : list Row
}.

(** ** Parameter normalisation *)

(** [{"Monthly": 12, "Quarterly": 4, "Yearly": 1}[compounding]] *)
Definition periods_per_year (c : Compounding) : Z :=
  match c with Monthly => 12 | Quarterly => 4 | Yearly => 1 end.

(** [n = max(1, int(years * periods_per_year))] *)
Definition n_periods (p : LoanParameters) : Z :=
  Z.max 1 (years p * periods_per_year (compounding p)).

(** [principal + fees_flat + principal * (fees_pct / 100.0)] *)
Definition principal_with_fees (p : LoanParameters) : Q :=
  principal p + fees_flat p + principal p * (fees_pct p / 100).

(** [r = (annual_rate_pct / 100.0) / periods_per_year] *)
Definition rate (p : LoanParameters) : Q :=
  (annual_rate_pct p / 100) / inject_Z (periods_per_year (compounding p)).

(** ** Payment selection *)

(** A division whose divisor is computed from the arguments: Python raises
    [ZeroDivisionError] on a zero divisor, here [None].  (The divisors
    [100.0] and [periods_per_year] above are non-zero constants.) *)
Definition div_checked (x y : Q) : option Q :=
  if Qeq_bool y 0 then None else Some (x / y).

Definition base_payment (p : LoanParameters) : option Q :=
  let n := n_periods p in
  let pwf := principal_with_fees p in
  let r := rate p in
  if flat_interest p then
    let total_interest_flat := pwf * (annual_rate_pct p / 100) * inject_Z (years p) in
    div_checked (pwf + total_interest_flat) (inject_Z n)
  else if Qeq_bool r 0 then
    div_checked pwf (inject_Z n)
  else
    div_checked (pwf * r * (1 + r) ^ n) ((1 + r) ^ n - 1).

(** ** The period loop *)

(** [timedelta(days=30)], [91] or [365], by [periods_per_year]. *)
Definition period_days (c : Compounding) : Z :=
  let ppy := periods_per_year c in
  if (ppy =? 12)%Z then 30 else if (ppy =? 4)%Z then 91 else 365.

(** The body of the loop for period [k], up to the test of [break].  The two
    running values are kept in lowest terms ([Qred q == q]): a float has one
    representation, and the fractions stay small. *)
Definition body (p : LoanParameters) (base : Q) (k : Z) (st : LoopState) : LoopState :=
  let pwf := principal_with_fees p in
  let r := rate p in
  let interest := if flat_interest p then pwf * r else bal st * r in
  let principal_comp := base - interest in
  let principal_comp := Qmin principal_comp (bal st) in
  let extra := Qmin (extra_per_period p) (Qmax 0 (bal st - principal_comp)) in
  let payment_this_period :=
    principal_comp + interest + extra + insurance_per_period p in
  let bal' := Qred (Qmax 0 (bal st - principal_comp - extra)) in
  let cumulative' := Qred (cumulative st + payment_this_period) in
  let row := {| Period := k;
                Date := d st;
                Payment := round2 base;
                Principal := round2 principal_comp;
                Interest := round2 interest;
                Extra := round2 extra;
                Insurance := round2 (insurance_per_period p);
                Balance := round2 bal';
                Cumulative_Paid := round2 cumulative' |} in
  {| bal := bal';
     cumulative := cumulative';
     d := (d st + period_days (compounding p))%Z;
     sched := sched st ++ [row] |}.

(** [for k in ks: body; if bal <= 0: break] *)
Fixpoint loop (p : LoanParameters) (base : Q) (ks : list Z) (st : LoopState)
  : LoopState :=
  match ks with
  | [] => st
  | k :: ks' =>
      let st' := body p base k st in
      if Qle_bool (bal st') 0 then st' else loop p base ks' st'
  end.

(** The states at the end of each executed iteration, in order: the trace
    of [loop], kept to speak about the unrounded running values. *)
Fixpoint loop_states (p : LoanParameters) (base : Q) (ks : list Z) (st : LoopState)
  : list LoopState :=
  match ks with
  | [] => []
  | k :: ks' =>
      let st' := body p base k st in
      st' :: (if Qle_bool (bal st') 0 then [] else loop_states p base ks' st')
  end.

(** [range(1, n + 1)] *)
Definition range1 (n : Z) : list Z := map Z.of_nat (seq 1 (Z.to_nat n)).

Definition init_state (p : LoanParameters) : LoopState :=
  {| bal := principal_with_fees p; cumulative := 0; d := start_date p; sched := [] |}.

(** ** Summary *)

(** [df[col].sum()] *)
Definition col_sum (col : Row -> Q) (rows : list Row) : Q :=
  fold_left (fun acc row => acc + col row) rows 0.

Definition zero_summary : Summary :=
  {| EMI_Payment := 0; Total_Interest := 0; Total_Extra := 0; Total_Insurance := 0;
     Total_Paid := 0; Tenure := 0; Last_Payment_Date := 0; Principal_incl_fees := 0 |}.

Definition summarize (p : LoanParameters) (rows : list Row) : Summary :=
  match rows with
  | [] => zero_summary
  | first :: _ =>
      {| EMI_Payment := round2 (Payment first);
         Total_Interest := round2 (col_sum Interest rows);
         Total_Extra := round2 (col_sum Extra rows);
         Total_Insurance := round2 (col_sum Insurance rows);
         Total_Paid :=
           round2 (col_sum Payment rows + col_sum Extra rows + col_sum Insurance rows);
         Tenure := Z.of_nat (length rows);
         Last_Payment_Date := Date (last rows first);
         Principal_incl_fees := round2 (principal_with_fees p) |}
  end.

(** ** The engine *)

Definition compute_schedule (p : LoanParameters) : option (list Row * Summary) :=
  match base_payment p with
  | None => None
  | Some base =>
      let st := loop p base (range1 (n_periods p)) (init_state p) in
      Some (sched st, summarize p (sched st))
  end.

(** The trace of the run of [compute_schedule p]. *)
Definition run_states (p : LoanParameters) : list LoopState :=
  match base_payment p with
  | None => []
  | Some base => loop_states p base (range1 (n_periods p)) (init_state p)
  end.

(** ** The payment selection of the specification

    Section 4.2 of the specification, in its words, on the quantities of
    the parameter normaliser. *)
Definition spec_basePayment (flatInterest : bool)
    (adjustedPrincipal periodRate annualRatePct : Q) (termYears totalPeriods : Z) : Q :=
  if flatInterest then
    let totalInterest := adjustedPrincipal * (annualRatePct / 100) * inject_Z termYears in
    (adjustedPrincipal + totalInterest) / inject_Z totalPeriods
  else if Qeq_bool periodRate 0 then
    adjustedPrincipal / inject_Z totalPeriods
  else
    adjustedPrincipal * periodRate * (1 + periodRate) ^ totalPeriods
    / ((1 + periodRate) ^ totalPeriods - 1).

(** ** Auxiliary notions

    Names for the quantities the statements below speak about. *)

(** Amounts with two decimals. *)
Definition two_decimals (q : Q) : Prop := exists z : Z, q == inject_Z z / 100.

(** The unrounded amounts of a period that starts with balance [b]. *)
Definition interest_at (p : LoanParameters) (b : Q) : Q :=
  if flat_interest p then principal_with_fees p * rate p else b * rate p.

Definition principal_at (p : LoanParameters) (base b : Q) : Q :=
  Qmin (base - interest_at p b) b.

Definition extra_at (p : LoanParameters) (base b : Q) : Q :=
  Qmin (extra_per_period p) (Qmax 0 (b - principal_at p base b)).

Definition payment_at (p : LoanParameters) (base b : Q) : Q :=
  principal_at p base b + interest_at p b + extra_at p base b
  + insurance_per_period p.

Definition next_bal (p : LoanParameters) (base b : Q) : Q :=
  Qmax 0 (b - principal_at p base b - extra_at p base b).

(** The record appended in period [k] from state [st]. *)
Definition row_of (p : LoanParameters) (base : Q) (k : Z) (st : LoopState) : Row :=
  {| Period := k;
     Date := d st;
     Payment := round2 base;
     Principal := round2 (principal_at p base (bal st));
     Interest := round2 (interest_at p (bal st));
     Extra := round2 (extra_at p base (bal st));
     Insurance := round2 (insurance_per_period p);
     Balance := round2 (Qred (next_bal p base (bal st)));
     Cumulative_Paid := round2 (Qred (cumulative st + payment_at p base (bal st))) |}.

(** The state after [i] periods when the loop is run without its [break]. *)
Fixpoint state_after (p : LoanParameters) (base : Q) (i : nat) : LoopState :=
  match i with
  | O => init_state p
  | S j => body p base (Z.of_nat (S j)) (state_after p base j)
  end.

(** The record of period [i], counted from 1. *)
Definition record_at (p : LoanParameters) (base : Q) (i : nat) : Row :=
  row_of p base (Z.of_nat i) (state_after p base (pred i)).

(** The number of periods the loop executes. *)
Definition tenure (p : LoanParameters) (base : Q) : nat :=
  length (loop_states p base (range1 (n_periods p)) (init_state p)).

(** [g 0 + ... + g (m - 1)] *)
Fixpoint sum_upto (g : nat -> Q) (m : nat) : Q :=
  match m with
  | O => 0
  | S j => sum_upto g j + g j
  end.

(** The balance the schedule alone leaves after a period that starts with
    [b]: the base payment less the interest comes off, nothing is clamped
    and nothing extra is paid. *)
Definition scheduled_next (p : LoanParameters) (base b : Q) : Q :=
  b - (base - interest_at p b).

Fixpoint scheduled_bal (p : LoanParameters) (base : Q) (i : nat) : Q :=
  match i with
  | O => principal_with_fees p
  | S j => scheduled_next p base (scheduled_bal p base j)
  end.

(** The parameter sets of the data model: amounts and rate non-negative,
    the term a positive number of years. *)
Definition valid_parameters (p : LoanParameters) : Prop :=
  0 <= principal p /\ 0 <= annual_rate_pct p /\ (1 <= years p)%Z /\
  0 <= extra_per_period p /\ 0 <= fees_flat p /\ 0 <= fees_pct p /\
  0 <= insurance_per_period p.

(** [p] with another extra payment per period. *)
Definition with_extra (p : LoanParameters) (e : Q) : LoanParameters :=
  {| principal := principal p; annual_rate_pct := annual_rate_pct p; years := years p;
     start_date := start_date p; compounding := compounding p;
     flat_interest := flat_interest p; extra_per_period := e;
     fees_flat := fees_flat p; fees_pct := fees_pct p;
     insurance_per_period := insurance_per_period p |}.

(** [p] with another insurance per period. *)
Definition with_insurance (p : LoanParameters) (ins : Q) : LoanParameters :=
  {| principal := principal p; annual_rate_pct := annual_rate_pct p; years := years p;
     start_date := start_date p; compounding := compounding p;
     flat_interest := flat_interest p; extra_per_period := extra_per_period p;
     fees_flat := fees_flat p; fees_pct := fees_pct p;
     insurance_per_period := ins |}.

(** What the standard formulas leave outstanding after [k] of the [n]
    payments: a straight line for the flat method and at rate 0, the
    annuity curve otherwise. *)
Definition textbook_balance (p : LoanParameters) (k : Z) : Q :=
  let P := principal_with_fees p in
  let r := rate p in
  let n := n_periods p in
  if flat_interest p || Qeq_bool r 0 then
    P * (1 - inject_Z k / inject_Z n)
  else
    P * ((1 + r) ^ n - (1 + r) ^ k) / ((1 + r) ^ n - 1).

(** ** Parameter sets used as examples *)

Definition params (P annual : Q) (y : Z) (c : Compounding) (flat : bool) (extra : Q)
  : LoanParameters :=
  {| principal := P; annual_rate_pct := annual; years := y; start_date := 0;
     compounding := c; flat_interest := flat; extra_per_period := extra;
     fees_flat := 0; fees_pct := 0; insurance_per_period := 0 |}.

(** 100 over one year, monthly, at 0 %. *)
Definition zero_rate_loan : LoanParameters := params 100 0 1 Monthly false 0.

(** The same loan with 40 extra in every period. *)
Definition zero_rate_loan_extra : LoanParameters := params 100 0 1 Monthly false 40.

(** 100,000 over one year, monthly, at 10 % flat. *)
Definition flat_loan : LoanParameters := params 100000 10 1 Monthly true 0.

(** 2,500,000 over 20 years, monthly, at 9 %, reducing balance. *)
Definition home_loan (extra : Q) : LoanParameters := params 2500000 9 20 Monthly false extra.

(** ** The call made by the page

    The values the sidebar widgets of the page hand to the script. *)
Record Sidebar := {
  w_start_date : Z;
  w_requested_loan : Q;
  w_annual_rate : Q;
  w_years : Z;
  w_compounding : Compounding;
  w_use_flat : bool;
  w_add_extra : bool;
  w_extra : Q;
  w_add_ins : bool;
  w_insurance : Q;
  w_add_fees : bool;
  w_fees_flat : Q;
  w_fees_pct : Q
}.

(** The arguments of the call [compute_schedule(principal=principal, ...)],
    with [principal = max(0.0, requested_loan)] and the optional amounts
    passed only when their switch is on. *)
Definition page_call (w : Sidebar) : LoanParameters :=
  {| principal := Qmax 0 (w_requested_loan w);
     annual_rate_pct := w_annual_rate w;
     years := w_years w;
     start_date := w_start_date w;
     compounding := w_compounding w;
     flat_interest := w_use_flat w;
     extra_per_period := if w_add_extra w then w_extra w else 0;
     fees_flat := if w_add_fees w then w_fees_flat w else 0;
     fees_pct := if w_add_fees w then w_fees_pct w else 0;
     insurance_per_period := if w_add_ins w then w_insurance w else 0 |}.

(** What the widgets guarantee: the sliders stay in their range
    ([0.0 .. 36.0] and [1 .. 40]) and a [number_input] with
    [min_value=0.0] is not negative. *)
Definition widget_ranges (w : Sidebar) : Prop :=
  0 <= w_annual_rate w <= 36 /\ (1 <= w_years w <= 40)%Z /\
  0 <= w_extra w /\ 0 <= w_insurance w /\ 0 <= w_fees_flat w /\ 0 <= w_fees_pct w.

(** The page as it opens: the default value of every widget. *)
Definition default_sidebar : Sidebar :=
  {| w_start_date := 0; w_requested_loan := 2000000; w_annual_rate := 9;
     w_years := 20; w_compounding := Monthly; w_use_flat := false;
     w_add_extra := false; w_extra := 0; w_add_ins := false; w_insurance := 0;
     w_add_fees := false; w_fees_flat := 0; w_fees_pct := 0 |}.

(** ** The payment selection over binary64

    Lines 33 to 48 of the source once more, with the arithmetic of Python
    floats: [+], [-], [*] and [/] are the IEEE operations, [/] raises
    [ZeroDivisionError] on a zero divisor, an [int] met by a float is
    converted first (to the nearest double, [OverflowError] when there is
    none).  Float [**] is the [pow] of the C library, which the repository
    does not contain: it is a parameter of the selection. *)

Module Binary64.

Inductive outcome (A : Type) : Type :=
| Returned (a : A)
| ZeroDivisionError
| OverflowError.

Arguments Returned {A} a.
Arguments ZeroDivisionError {A}.
Arguments OverflowError {A}.

Definition bind {A B : Type} (c : outcome A) (k : A -> outcome B) : outcome B :=
  match c with
  | Returned a => k a
  | ZeroDivisionError => ZeroDivisionError
  | OverflowError => OverflowError
  end.

Notation "x <- c ;; k" := (bind c (fun x => k))
  (at level 61, c at next level, right associativity).

(** [float(z)] for an [int] [z] *)
Definition float_of_int (z : Z) : outcome float :=
  match SpecFloat.binary_normalize FloatOps.prec FloatOps.emax z 0 false with
  | SpecFloat.S754_infinity _ => OverflowError
  | sf => Returned (FloatOps.SF2Prim sf)
  end.

(** [x / y] *)
Definition div (x y : float) : outcome float :=
  if (y =? 0)%float then ZeroDivisionError else Returned (x / y)%float.

(** The arguments the selection reads. *)
Record PaymentArguments := {
  principal : float;
  annual_rate_pct : float;
  years : Z;
  compounding : Compounding;
  flat_interest : bool;
  fees_flat : float;
  fees_pct : float
}.

Definition n_periods (a : PaymentArguments) : Z :=
  Z.max 1 (years a * periods_per_year (compounding a)).

Definition principal_with_fees (a : PaymentArguments) : float :=
  (principal a + fees_flat a + principal a * (fees_pct a / 100))%float.

Definition rate (a : PaymentArguments) : outcome float :=
  ppy <- float_of_int (periods_per_year (compounding a)) ;;
  div (annual_rate_pct a / 100)%float ppy.

Definition base_payment (pow : float -> Z -> outcome float) (a : PaymentArguments)
  : outcome float :=
  let n := n_periods a in
  let pwf := principal_with_fees a in
  r <- rate a ;;
  if flat_interest a then
    y <- float_of_int (years a) ;;
    let total_interest_flat := (pwf * (annual_rate_pct a / 100) * y)%float in
    nf <- float_of_int n ;;
    div (pwf + total_interest_flat)%float nf
  else if (r =? 0)%float then
    nf <- float_of_int n ;;
    div pwf nf
  else
    g <- pow (1 + r)%float n ;;
    g' <- pow (1 + r)%float n ;;
    div (pwf * r * g)%float (g' - 1)%float.

(** One admissible [**]: repeated multiplication. *)
Fixpoint pow_mul_nat (x : float) (k : nat) : float :=
  match k with
  | O => 1%float
  | S j => (x * pow_mul_nat x j)%float
  end.

Definition pow_mul (x : float) (n : Z) : outcome float :=
  Returned (pow_mul_nat x (Z.to_nat n)).

(** 100,000 over one year, monthly, reducing balance, at the rate Python
    reads from [1e-15]. *)
Definition tiny_rate_loan : PaymentArguments :=
  {| principal := 100000; annual_rate_pct := 0x1.203af9ee75616p-50; years := 1;
     compounding := Monthly; flat_interest := false; fees_flat := 0; fees_pct := 0 |}.

End Binary64.

(** ** Currency display

    [inr(x)] is [f"₹{x:,.0f}"]: the amount to the nearest unit (ties to
    even), in decimal with a comma before every group of three digits, a
    minus sign before a negative amount (also one that rounds to 0), after
    the rupee sign.  Strings are the UTF-8 bytes of the Python strings. *)

(** The decimal digits of a natural number. *)
Definition numeral (n : N) : string :=
  DecimalString.NilEmpty.string_of_uint (N.to_uint n).

(** The [,] option on digits given last digit first. *)
Fixpoint commas_rev (l : list ascii) : list ascii :=
  match l with
  | a :: l1 =>
      match l1 with
      | b :: l2 =>
          match l2 with
          | c :: rest =>
              match rest with
              | [] => l
              | _ :: _ => a :: b :: c :: ","%char :: commas_rev rest
              end
          | [] => l
          end
      | [] => l
      end
  | [] => l
  end.

Definition with_commas (s : string) : string :=
  string_of_list_ascii (rev (commas_rev (rev (list_ascii_of_string s)))).

Definition inr (x : Q) : string :=
  ("₹" ++ (if Qle_bool 0 x then "" else "-")
       ++ with_commas (numeral (Z.abs_N (round_half_even x))))%string.

(** Reading a displayed amount back: the digits after the rupee sign and an
    optional minus sign, commas skipped. *)
Definition without_commas (s : string) : string :=
  string_of_list_ascii
    (filter (fun a => negb (Ascii.eqb a ","%char)) (list_ascii_of_string s)).

Definition read_digits (s : string) : option Z :=
  match DecimalString.NilZero.uint_of_string (without_commas s) with
  | Some d => Some (Z.of_N (N.of_uint d))
  | None => None
  end.

Definition read_inr (s : string) : option Z :=
  match s with
  | String "226" (String "130" (String "185" rest)) =>
      match rest with
      | String "-" digits => option_map Z.opp (read_digits digits)
      | _ => read_digits rest
      end
  | _ => None
  end.

(** The ten digit characters. *)
Definition digit (a : ascii) : Prop :=
  In a ["0"; "1"; "2"; "3"; "4"; "5"; "6"; "7"; "8"; "9"]%char.

(** ** The chat page

    [streaming chat app/streamlit_groq_chat_app.py].  The session state is
    a store in which a key is absent ([None]) or holds a value; reading an
    absent key or the first element of an empty list raises, here [None].
    The Groq service is outside the repository: the client is a token made
    from the key, and what a completion request streams back is an input of
    the run.  The key itself is an argument (the source holds it as a
    literal). *)

Module Chat.

Record Message := { role : string; content : string }.

Inductive Client := Groq (api_key : string).

Record Session := {
  messages : option (list Message);
  client : option (option Client)
}.

(** A session that has run nothing yet. *)
Definition fresh : Session := {| messages := None; client := None |}.

Definition init_session (s : Session) : Session :=
  let s1 :=
    match messages s with
    | None =>
        {| messages := Some [ {| role := "system"%string;
                                 content := "You are a helpful assistant."%string |} ];
           client := client s |}
    | Some _ => s
    end in
  match client s1 with
  | None => {| messages := messages s1; client := Some None |}
  | Some _ => s1
  end.

(** [get_client()]: the session after the call and what it returns. *)
Definition get_client (key : string) (s : Session) : option (Session * option Client) :=
  match client s with
  | None => None
  | Some (Some c) => Some (s, Some c)
  | Some None =>
      if String.eqb key ""%string then Some (s, None)
      else
        Some ({| messages := messages s; client := Some (Some (Groq key)) |},
              Some (Groq key))
  end.

Definition append_message (r c : string) (s : Session) : option Session :=
  match messages s with
  | None => None
  | Some l =>
      Some {| messages := Some (l ++ [ {| role := r; content := c |} ]);
              client := client s |}
  end.

(** What the completion request does when it is iterated: it yields the
    contents of its chunks (a chunk without text is [None]) and ends, or
    raises after some of them. *)
Inductive Stream :=
| Ends (chunks : list (option string))
| Raises (chunks : list (option string)).

Definition chunks_of (st : Stream) : list (option string) :=
  match st with Ends cs => cs | Raises cs => cs end.

(** The widget values of one run of the script. *)
Record Widgets := {
  system_prompt : string;
  update_clicked : bool;
  clear_clicked : bool;
  user_input : option string;
  service : list Message -> Stream
}.

(** What one run renders: the chat messages in order, the successive texts
    of the assistant's placeholder, and whether the error box is shown. *)
Record Page := {
  shown : list Message;
  placeholder : list string;
  error_shown : bool
}.

Definition blank : Page := {| shown := []; placeholder := []; error_shown := false |}.

(** [if delta and getattr(delta, "content", None)] *)
Definition has_text (chunk : option string) : bool :=
  match chunk with
  | Some c => negb (String.eqb c ""%string)
  | None => false
  end.

(** The loop over the stream: the text so far and the placeholder's texts. *)
Fixpoint receive (chunks : list (option string)) (text : string) (seen : list string)
  : string * list string :=
  match chunks with
  | [] => (text, seen)
  | chunk :: rest =>
      match chunk with
      | Some c =>
          if has_text chunk
          then receive rest (text ++ c)%string (seen ++ [(text ++ c)%string])
          else receive rest text seen
      | None => receive rest text seen
      end
  end.

(** One run of the script, from [init_session()] to its end, a rerun or a
    stop. *)
Definition run (key : string) (w : Widgets) (s : Session) : option (Session * Page) :=
  let s := init_session s in
  match messages s with
  | None => None
  | Some [] => None
  | Some (first :: rest) =>
      if update_clicked w then
        Some ({| messages := Some ({| role := role first; content := system_prompt w |} :: rest);
                 client := client s |}, blank)
      else if clear_clicked w then
        Some ({| messages := Some [ {| role := "system"%string; content := system_prompt w |} ];
                 client := client s |}, blank)
      else
        let history :=
          filter (fun m => negb (String.eqb (role m) "system"%string)) (first :: rest) in
        match user_input w with
        | None => Some (s, {| shown := history; placeholder := []; error_shown := false |})
        | Some text =>
            if String.eqb text ""%string then
              Some (s, {| shown := history; placeholder := []; error_shown := false |})
            else
              match get_client key s with
              | None => None
              | Some (s, None) =>
                  Some (s, {| shown := history; placeholder := []; error_shown := true |})
              | Some (s, Some _) =>
                  match append_message "user"%string text s with
                  | None => None
                  | Some s =>
                      let asked := history ++ [ {| role := "user"%string; content := text |} ] in
                      match messages s with
                      | None => None
                      | Some msgs =>
                          let messages_for_api :=
                            map (fun m => {| role := role m; content := content m |}) msgs in
                          match service w messages_for_api with
                          | Ends chunks =>
                              let (assistant_text, seen) := receive chunks ""%string [] in
                              match append_message "assistant"%string assistant_text s with
                              | None => None
                              | Some s =>
                                  Some (s, {| shown := asked; placeholder := seen;
                                              error_shown := false |})
                              end
                          | Raises chunks =>
                              let (_, seen) := receive chunks ""%string [] in
                              Some (s, {| shown := asked; placeholder := seen;
                                          error_shown := true |})
                          end
                      end
                  end
              end
        end
  end.

(** The script run once per interaction. *)
Fixpoint run_all (key : string) (ws : list Widgets) (s : Session) : option Session :=
  match ws with
  | [] => Some s
  | w :: ws' =>
      match run key w s with
      | None => None
      | Some (s', _) => run_all key ws' s'
      end
  end.

(** The history is a system message followed by user and assistant
    messages, and the client key is present. *)
Definition well_formed (s : Session) : Prop :=
  exists sys talk,
    messages s = Some ({| role := "system"%string; content := sys |} :: talk) /\
    Forall (fun m => role m = "user"%string \/ role m = "assistant"%string) talk /\
    client s <> None.

(** The text of a stream: its chunks' texts in order. *)
Fixpoint stream_text (chunks : list (option string)) : string :=
  match chunks with
  | [] => ""%string
  | Some t :: rest => (t ++ stream_text rest)%string
  | None :: rest => stream_text rest
  end.

(** A session that has been opened, and one question answered in four chunks. *)
Definition opened : Session := init_session fresh.

Definition greeting : Widgets :=
  {| system_prompt := "You are a helpful assistant."%string;
     update_clicked := false; clear_clicked := false;
     user_input := Some "hi"%string;
     service := fun _ => Ends [Some "Hel"%string; None; Some ""%string; Some "lo"%string] |}.

End Chat.

(** * Properties *)

(** ** Rounding *)

Lemma round_half_even_near (x : Q) :
  inject_Z (round_half_even x) - (1 # 2) <= x /\
  x <= inject_Z (round_half_even x) + (1 # 2).
Proof.
  unfold round_half_even.
  pose proof (Qfloor_le x) as Hlo.
  pose proof (Qlt_floor x) as Hhi.
  rewrite inject_Z_plus in Hhi. change (inject_Z 1) with 1 in Hhi.
  destruct (Qcompare_spec (x - inject_Z (Qfloor x)) (1 # 2)) as [He | Hl | Hg].
  - destruct (Z.even (Qfloor x)).
    + split; lra.
    + rewrite inject_Z_plus. change (inject_Z 1) with 1. split; lra.
  - split; lra.
  - rewrite inject_Z_plus. change (inject_Z 1) with 1. split; lra.
Qed.

Lemma round_half_even_comp (x y : Q) :
  x == y -> round_half_even x = round_half_even y.
Proof.
  intros E. unfold round_half_even.
  rewrite (Qfloor_comp _ _ E).
  assert (Ec : Qcompare (x - inject_Z (Qfloor y)) (1 # 2)
               = Qcompare (y - inject_Z (Qfloor y)) (1 # 2)).
  { apply Qcompare_comp; [rewrite E|]; reflexivity. }
  rewrite Ec. reflexivity.
Qed.

Lemma round_half_even_Z (z : Z) : round_half_even (inject_Z z) = z.
Proof.
  unfold round_half_even. rewrite Qfloor_Z.
  destruct (Qcompare_spec (inject_Z z - inject_Z z) (1 # 2)); try reflexivity; lra.
Qed.

Lemma round_half_even_mono (x y : Q) :
  x <= y -> (round_half_even x <= round_half_even y)%Z.
Proof.
  intros Hxy.
  pose proof (Qfloor_resp_le _ _ Hxy) as Hf.
  pose proof (Qfloor_le x) as Hxl. pose proof (Qlt_floor x) as Hxh.
  pose proof (Qfloor_le y) as Hyl. pose proof (Qlt_floor y) as Hyh.
  rewrite inject_Z_plus in Hxh, Hyh.
  change (inject_Z 1) with 1 in Hxh, Hyh.
  unfold round_half_even.
  destruct (Z.eq_dec (Qfloor x) (Qfloor y)) as [E | NE].
  - rewrite <- E in *.
    destruct (Qcompare_spec (x - inject_Z (Qfloor x)) (1 # 2));
      destruct (Qcompare_spec (y - inject_Z (Qfloor x)) (1 # 2));
      destruct (Z.even (Qfloor x)); solve [lia | lra].
  - assert (Hlt : (Qfloor x + 1 <= Qfloor y)%Z) by lia.
    destruct (Qcompare (x - inject_Z (Qfloor x)) (1 # 2));
      destruct (Qcompare (y - inject_Z (Qfloor y)) (1 # 2));
      destruct (Z.even (Qfloor x)); destruct (Z.even (Qfloor y)); lia.
Qed.

Lemma round2_comp (x y : Q) : x == y -> round2 x == round2 y.
Proof.
  intros E. unfold round2.
  rewrite (round_half_even_comp (x * 100) (y * 100)); [reflexivity|].
  rewrite E. reflexivity.
Qed.

#[export] Instance round2_proper : Proper (Qeq ==> Qeq) round2.
Proof. intros x y E. apply round2_comp, E. Qed.

(** The rounding error of one field: at most half a hundredth. *)
Lemma round2_near (x : Q) :
  round2 x - (1 # 200) <= x /\ x <= round2 x + (1 # 200).
Proof.
  unfold round2.
  destruct (round_half_even_near (x * 100)) as [Hlo Hhi].
  set (z := inject_Z (round_half_even (x * 100))) in *.
  split.
  - apply Qmult_le_r with (z := 100); [reflexivity|].
    field_simplify. field_simplify in Hlo. lra.
  - apply Qmult_le_r with (z := 100); [reflexivity|].
    field_simplify. field_simplify in Hhi. lra.
Qed.

Lemma round2_mono (x y : Q) : x <= y -> round2 x <= round2 y.
Proof.
  intros H. unfold round2.
  apply Qmult_le_compat_r; [|discriminate].
  rewrite <- Zle_Qle. apply round_half_even_mono.
  apply Qmult_le_compat_r; [exact H | discriminate].
Qed.

Lemma two_decimals_round2 (x : Q) : two_decimals (round2 x).
Proof. exists (round_half_even (x * 100)). reflexivity. Qed.

Lemma two_decimals_0 : two_decimals 0.
Proof. exists 0%Z. reflexivity. Qed.

Lemma two_decimals_plus (x y : Q) :
  two_decimals x -> two_decimals y -> two_decimals (x + y).
Proof.
  intros [a Ha] [b Hb]. exists (a + b)%Z.
  rewrite Ha, Hb, inject_Z_plus. field.
Qed.

Lemma two_decimals_comp (x y : Q) : x == y -> two_decimals x -> two_decimals y.
Proof. intros E [z Hz]. exists z. rewrite <- E. exact Hz. Qed.

Lemma round2_two_decimals (x : Q) : two_decimals x -> round2 x == x.
Proof.
  intros [z Hz]. rewrite (round2_comp _ _ Hz). rewrite Hz.
  unfold round2.
  rewrite (round_half_even_comp (inject_Z z / 100 * 100) (inject_Z z)) by field.
  rewrite round_half_even_Z. reflexivity.
Qed.

Lemma round2_idem (x : Q) : round2 (round2 x) == round2 x.
Proof. apply round2_two_decimals, two_decimals_round2. Qed.

Lemma round2_0 : round2 0 == 0.
Proof. reflexivity. Qed.

Lemma round2_nonneg (x : Q) : 0 <= x -> 0 <= round2 x.
Proof. intros H. rewrite <- round2_0. apply round2_mono, H. Qed.

(** ** One period *)

Lemma body_eq p base k st :
  body p base k st =
  {| bal := Qred (next_bal p base (bal st));
     cumulative := Qred (cumulative st + payment_at p base (bal st));
     d := (d st + period_days (compounding p))%Z;
     sched := sched st ++ [row_of p base k st] |}.
Proof. reflexivity. Qed.

Lemma body_bal p base k st : bal (body p base k st) == next_bal p base (bal st).
Proof. rewrite body_eq. cbn [bal]. apply Qred_correct. Qed.

Lemma body_cumulative p base k st :
  cumulative (body p base k st) == cumulative st + payment_at p base (bal st).
Proof. rewrite body_eq. cbn [cumulative]. apply Qred_correct. Qed.

Lemma body_sched p base k st :
  sched (body p base k st) = sched st ++ [row_of p base k st].
Proof. reflexivity. Qed.

Lemma row_of_Balance p base k st :
  Balance (row_of p base k st) == round2 (bal (body p base k st)).
Proof. reflexivity. Qed.

Lemma row_of_Cumulative_Paid p base k st :
  Cumulative_Paid (row_of p base k st) == round2 (cumulative (body p base k st)).
Proof. reflexivity. Qed.

#[export] Instance interest_at_proper p : Proper (Qeq ==> Qeq) (interest_at p).
Proof.
  intros x y E. unfold interest_at. destruct (flat_interest p);
    [reflexivity | rewrite E; reflexivity].
Qed.

#[export] Instance principal_at_proper p base : Proper (Qeq ==> Qeq) (principal_at p base).
Proof. intros x y E. unfold principal_at. rewrite E. reflexivity. Qed.

#[export] Instance extra_at_proper p base : Proper (Qeq ==> Qeq) (extra_at p base).
Proof. intros x y E. unfold extra_at. rewrite E. reflexivity. Qed.

#[export] Instance payment_at_proper p base : Proper (Qeq ==> Qeq) (payment_at p base).
Proof. intros x y E. unfold payment_at. rewrite E. reflexivity. Qed.

#[export] Instance next_bal_proper p base : Proper (Qeq ==> Qeq) (next_bal p base).
Proof. intros x y E. unfold next_bal. rewrite E. reflexivity. Qed.

(** The principal and the extra of a period never exceed what is owed, so
    the clamp [max(0.0, ...)] of the new balance is never active. *)
Lemma principal_at_le p base b : principal_at p base b <= b.
Proof. apply Q.le_min_r. Qed.

Lemma extra_at_le p base b : extra_at p base b <= b - principal_at p base b.
Proof.
  unfold extra_at. pose proof (principal_at_le p base b).
  rewrite Q.max_r by lra. apply Q.le_min_r.
Qed.

Lemma next_bal_exact p base b :
  next_bal p base b == b - principal_at p base b - extra_at p base b.
Proof.
  unfold next_bal. pose proof (extra_at_le p base b).
  apply Q.max_r. lra.
Qed.

Lemma next_bal_nonneg p base b : 0 <= next_bal p base b.
Proof. apply Q.le_max_l. Qed.

(** With a non-negative extra payment the new balance is the scheduled one,
    less the extra, floored at zero. *)
Lemma next_bal_scheduled p base b :
  0 <= extra_per_period p ->
  next_bal p base b == Qmax 0 (b - (base - interest_at p b) - extra_per_period p).
Proof.
  intros He. rewrite next_bal_exact. unfold extra_at, principal_at.
  set (s := base - interest_at p b).
  destruct (Qlt_le_dec b s) as [Hlt | Hle].
  - rewrite (Q.min_r s b) by lra.
    rewrite (Q.max_l 0 (b - b)) by lra.
    rewrite (Q.min_r _ 0) by lra.
    rewrite Q.max_l by lra. lra.
  - rewrite (Q.min_l s b) by lra.
    rewrite (Q.max_r 0 (b - s)) by lra.
    destruct (Qlt_le_dec (b - s) (extra_per_period p)) as [H1 | H1].
    + rewrite (Q.min_r _ (b - s)) by lra. rewrite Q.max_l by lra. lra.
    + rewrite (Q.min_l _ (b - s)) by lra. rewrite Q.max_r by lra. lra.
Qed.

(** ** The shape of a run *)

Lemma last_cons {A : Type} (x : A) (l : list A) (dflt : A) :
  last (x :: l) dflt = last l x.
Proof.
  revert x dflt. induction l as [|y l IH]; intros x dflt; [reflexivity|].
  change (last (x :: y :: l) dflt) with (last (y :: l) dflt).
  rewrite (IH y dflt), (IH y x). reflexivity.
Qed.

Lemma loop_last p base ks st :
  loop p base ks st = last (loop_states p base ks st) st.
Proof.
  revert st. induction ks as [|k ks IH]; intros st; [reflexivity|].
  cbn [loop loop_states].
  destruct (Qle_bool (bal (body p base k st)) 0) eqn:E; [reflexivity|].
  rewrite IH, last_cons. reflexivity.
Qed.

(** The executed iterations are a prefix of the unbroken run: the loop
    leaves at the first period whose balance is not positive. *)
Lemma loop_states_prefix p base len : forall a,
  exists m, (m <= len)%nat /\ (1 <= len -> 1 <= m)%nat /\
    loop_states p base (map Z.of_nat (seq (S a) len)) (state_after p base a)
      = map (state_after p base) (seq (S a) m) /\
    (forall i, (a < i < a + m)%nat -> 0 < bal (state_after p base i)) /\
    ((m < len)%nat -> bal (state_after p base (a + m)) <= 0).
Proof.
  induction len as [|len IH]; intros a.
  - exists 0%nat. repeat split; intros; lia.
  - cbn [seq map loop_states].
    change (body p base (Z.of_nat (S a)) (state_after p base a))
      with (state_after p base (S a)).
    destruct (Qle_bool (bal (state_after p base (S a))) 0) eqn:E.
    + exists 1%nat. split; [lia|]. split; [lia|]. split; [reflexivity|].
      split; [intros; lia|].
      intros _. apply Qle_bool_iff in E. replace (a + 1)%nat with (S a) by lia.
      exact E.
    + destruct (IH (S a)) as (m & Hm & _ & Hst & Hpos & Hend).
      exists (S m). split; [lia|]. split; [lia|]. split; [|split].
      * rewrite Hst. reflexivity.
      * intros i Hi. destruct (Nat.eq_dec i (S a)) as [-> | Hne].
        -- apply Qnot_le_lt. intros H. apply Qle_bool_iff in H. congruence.
        -- apply Hpos. lia.
      * intros H. replace (a + S m)%nat with (S a + m)%nat by lia.
        apply Hend. lia.
Qed.

Lemma sched_state_after p base i :
  sched (state_after p base i) = map (record_at p base) (seq 1 i).
Proof.
  induction i as [|i IH]; [reflexivity|].
  cbn [state_after]. rewrite body_sched, IH.
  rewrite seq_S, map_app. reflexivity.
Qed.

Lemma n_periods_pos p : (1 <= n_periods p)%Z.
Proof. unfold n_periods. lia. Qed.

Lemma run_prefix p base :
  let m := tenure p base in
  (1 <= m <= Z.to_nat (n_periods p))%nat /\
  loop_states p base (range1 (n_periods p)) (init_state p)
    = map (state_after p base) (seq 1 m) /\
  loop p base (range1 (n_periods p)) (init_state p) = state_after p base m /\
  (forall i, (1 <= i < m)%nat -> 0 < bal (state_after p base i)) /\
  ((m < Z.to_nat (n_periods p))%nat -> bal (state_after p base m) <= 0).
Proof.
  intros m.
  destruct (loop_states_prefix p base (Z.to_nat (n_periods p)) 0)
    as (m' & Hle & Hge & Hst & Hpos & Hend).
  change (state_after p base 0) with (init_state p) in Hst.
  fold (range1 (n_periods p)) in Hst.
  assert (Hm : m = m').
  { unfold m, tenure. rewrite Hst, length_map, length_seq. reflexivity. }
  pose proof (n_periods_pos p).
  assert (1 <= m')%nat by (apply Hge; lia).
  rewrite Hm. split; [lia|]. split; [exact Hst|]. split; [|split].
  - rewrite loop_last, Hst.
    destruct m' as [|m'']; [lia|].
    rewrite seq_S, map_app. cbn [map]. rewrite last_last. reflexivity.
  - intros i Hi. apply Hpos. lia.
  - exact Hend.
Qed.

Lemma compute_schedule_eq p base :
  base_payment p = Some base ->
  compute_schedule p =
    Some (map (record_at p base) (seq 1 (tenure p base)),
          summarize p (map (record_at p base) (seq 1 (tenure p base)))).
Proof.
  intros Hb. unfold compute_schedule. rewrite Hb.
  destruct (run_prefix p base) as (_ & _ & Hl & _).
  cbv zeta. rewrite Hl, sched_state_after. reflexivity.
Qed.

Lemma run_states_eq p base :
  base_payment p = Some base ->
  run_states p = map (state_after p base) (seq 1 (tenure p base)).
Proof.
  intros Hb. unfold run_states. rewrite Hb.
  destruct (run_prefix p base) as (_ & Hs & _). exact Hs.
Qed.

Lemma compute_schedule_Some p sched0 summ :
  compute_schedule p = Some (sched0, summ) ->
  exists base, base_payment p = Some base /\
    sched0 = map (record_at p base) (seq 1 (tenure p base)) /\
    summ = summarize p sched0.
Proof.
  intros H. destruct (base_payment p) as [base|] eqn:Hb.
  - exists base. split; [reflexivity|].
    rewrite (compute_schedule_eq p base Hb) in H. inversion H. split; reflexivity.
  - unfold compute_schedule in H. rewrite Hb in H. discriminate.
Qed.

Lemma nth_error_map_seq {A : Type} (f : nat -> A) (a m i : nat) :
  nth_error (map f (seq a m)) i = if (i <? m)%nat then Some (f (a + i)%nat) else None.
Proof.
  destruct (Nat.ltb_spec i m) as [H | H].
  - rewrite nth_error_map, nth_error_seq.
    destruct (Nat.ltb_spec i m); [reflexivity | lia].
  - apply nth_error_None. rewrite length_map, length_seq. exact H.
Qed.

(** [C4] Whenever [compute_schedule] returns, it has produced at least one
    and at most [n = max(1, years * periods_per_year)] records, one per
    executed iteration; the running (unrounded) balance is positive after
    every iteration but the last, and when fewer than [n] records were
    produced the loop was left because the running balance had reached 0. *)
Theorem record_count_and_early_stop (p : LoanParameters) (rows : list Row) (summ : Summary) :
  compute_schedule p = Some (rows, summ) ->
  (1 <= Z.of_nat (length rows) <= n_periods p)%Z /\
  length (run_states p) = length rows /\
  (forall i s, (S i < length rows)%nat ->
     nth_error (run_states p) i = Some s -> 0 < bal s) /\
  ((Z.of_nat (length rows) < n_periods p)%Z ->
     exists s, nth_error (run_states p) (length rows - 1) = Some s /\ bal s == 0).
Proof.
  intros H.
  destruct (compute_schedule_Some p rows summ H) as (base & Hb & Hrows & _).
  destruct (run_prefix p base) as (Hm & _ & _ & Hpos & Hend).
  rewrite (run_states_eq p base Hb).
  assert (Hlen : length rows = tenure p base).
  { rewrite Hrows, length_map, length_seq. reflexivity. }
  rewrite Hlen, length_map, length_seq.
  split; [lia|]. split; [reflexivity|]. split.
  - intros i s Hi Hn. rewrite nth_error_map_seq in Hn.
    destruct (Nat.ltb_spec i (tenure p base)); [|discriminate].
    injection Hn as <-. apply (Hpos (1 + i)%nat). lia.
  - intros Hlt. exists (state_after p base (tenure p base)). split.
    + rewrite nth_error_map_seq.
      destruct (Nat.ltb_spec (tenure p base - 1) (tenure p base)); [|lia].
      f_equal. f_equal. lia.
    + apply Qle_antisym.
      * apply Hend. lia.
      * destruct (tenure p base) as [|j] eqn:Et; [lia|].
        cbn [state_after]. rewrite body_bal. apply next_bal_nonneg.
Qed.

Lemma record_count_and_early_stop_witness :
  exists rows summ,
    compute_schedule zero_rate_loan_extra = Some (rows, summ) /\
    length rows = 3%nat /\
    ((1 <= Z.of_nat (length rows) <= n_periods zero_rate_loan_extra)%Z /\
     length (run_states zero_rate_loan_extra) = length rows /\
     (forall i s, (S i < length rows)%nat ->
        nth_error (run_states zero_rate_loan_extra) i = Some s -> 0 < bal s) /\
     ((Z.of_nat (length rows) < n_periods zero_rate_loan_extra)%Z ->
        exists s, nth_error (run_states zero_rate_loan_extra) (length rows - 1) = Some s
                  /\ bal s == 0)).
Proof.
  eexists. eexists. split; [vm_compute; reflexivity|].
  split; [reflexivity|].
  eapply (record_count_and_early_stop zero_rate_loan_extra).
  vm_compute. reflexivity.
Defined.

(** ** Normalised parameters *)

Lemma periods_per_year_pos c : (1 <= periods_per_year c)%Z.
Proof. destruct c; cbn; lia. Qed.

Lemma n_periods_years p : (1 <= years p)%Z ->
  n_periods p = (years p * periods_per_year (compounding p))%Z.
Proof.
  intros H. unfold n_periods. pose proof (periods_per_year_pos (compounding p)). nia.
Qed.

Lemma inject_Z_pos (z : Z) : (1 <= z)%Z -> 1 <= inject_Z z.
Proof. intros H. change 1 with (inject_Z 1). rewrite <- Zle_Qle. exact H. Qed.

Lemma inject_Z_n_periods p : 1 <= inject_Z (n_periods p).
Proof. apply inject_Z_pos, n_periods_pos. Qed.

Lemma rate_nonneg p : 0 <= annual_rate_pct p -> 0 <= rate p.
Proof.
  intros H. unfold rate.
  pose proof (inject_Z_pos _ (periods_per_year_pos (compounding p))) as Hp.
  apply Qle_shift_div_l; [lra|]. rewrite Qmult_0_l.
  apply Qle_shift_div_l; [reflexivity|]. lra.
Qed.

Lemma rate_eq p :
  rate p * inject_Z (periods_per_year (compounding p)) == annual_rate_pct p / 100.
Proof.
  unfold rate.
  pose proof (inject_Z_pos _ (periods_per_year_pos (compounding p))) as Hp.
  field. lra.
Qed.

Lemma principal_with_fees_nonneg p :
  0 <= principal p -> 0 <= fees_flat p -> 0 <= fees_pct p -> 0 <= principal_with_fees p.
Proof.
  intros H1 H2 H3. unfold principal_with_fees.
  assert (0 <= principal p * (fees_pct p / 100)).
  { apply Qmult_le_0_compat; [exact H1|].
    apply Qle_shift_div_l; [reflexivity|]. lra. }
  lra.
Qed.

Lemma div_checked_Some x y : ~ y == 0 -> div_checked x y = Some (x / y).
Proof.
  intros H. unfold div_checked.
  destruct (Qeq_bool y 0) eqn:E; [|reflexivity].
  apply Qeq_bool_iff in E. contradiction.
Qed.

Lemma div_checked_inv x y q : div_checked x y = Some q -> ~ y == 0 /\ q = x / y.
Proof.
  unfold div_checked. destruct (Qeq_bool y 0) eqn:E; [discriminate|].
  intros H. injection H as <-. split; [|reflexivity].
  intros Hy. apply Qeq_bool_iff in Hy. congruence.
Qed.

(** The compound factor [(1 + r) ** n] exceeds 1 when the rate is positive. *)
Lemma growth_gt_1 (r : Q) (n : Z) : 0 < r -> (1 <= n)%Z -> 1 < (1 + r) ^ n.
Proof. intros Hr Hn. apply Qpower_1_lt; [lra | lia]. Qed.

(** ** The base payment of a valid parameter set *)

Lemma base_payment_total p :
  valid_parameters p -> exists base, base_payment p = Some base.
Proof.
  intros (HP & HA & HY & HE & HF & HFp & HI).
  pose proof (inject_Z_n_periods p) as Hn.
  pose proof (rate_nonneg p HA) as Hr.
  unfold base_payment. cbv zeta.
  destruct (flat_interest p).
  - eexists. apply div_checked_Some. lra.
  - destruct (Qeq_bool (rate p) 0) eqn:E.
    + eexists. apply div_checked_Some. lra.
    + eexists. apply div_checked_Some.
      assert (Hr0 : ~ rate p == 0).
      { intros H. apply Qeq_bool_iff in H. congruence. }
      assert (0 < rate p) by (apply Qle_lteq in Hr; destruct Hr as [|Hr]; [assumption|];
                               symmetry in Hr; contradiction).
      pose proof (growth_gt_1 (rate p) (n_periods p) H (n_periods_pos p)). lra.
Qed.

Section ValidRun.

Variable p : LoanParameters.
Variable base : Q.
Hypothesis Hvalid : valid_parameters p.
Hypothesis Hbase : base_payment p = Some base.

Let P := principal_with_fees p.
Let r := rate p.
Let n := n_periods p.

Lemma valid_P_nonneg : 0 <= P.
Proof.
  destruct Hvalid as (HP & HA & HY & HE & HF & HFp & HI).
  apply principal_with_fees_nonneg; assumption.
Qed.

Lemma valid_r_nonneg : 0 <= r.
Proof. apply rate_nonneg. apply Hvalid. Qed.

Lemma valid_n : 1 <= inject_Z n.
Proof. apply inject_Z_n_periods. Qed.

(** Flat method: what the base payment leaves for the principal is the
    [n]-th part of the amount lent. *)
Lemma flat_principal_part :
  flat_interest p = true -> base - P * r == P / inject_Z n.
Proof.
  intros Hf. destruct Hvalid as (HP & HA & HY & HE & HF & HFp & HI).
  unfold base_payment in Hbase. cbv zeta in Hbase. rewrite Hf in Hbase.
  apply div_checked_inv in Hbase. destruct Hbase as [_ ->].
  fold P. subst n r. rewrite (n_periods_years p HY), inject_Z_mult.
  pose proof (inject_Z_pos _ HY) as H1.
  pose proof (inject_Z_pos _ (periods_per_year_pos (compounding p))) as H2.
  unfold rate. field. split; lra.
Qed.

Lemma zero_rate_base :
  flat_interest p = false -> r == 0 -> base == P / inject_Z n.
Proof.
  intros Hf Hr. unfold base_payment in Hbase. cbv zeta in Hbase.
  rewrite Hf in Hbase. fold r in Hbase.
  apply Qeq_bool_iff in Hr. rewrite Hr in Hbase.
  apply div_checked_inv in Hbase. destruct Hbase as [_ ->]. reflexivity.
Qed.

Lemma annuity_base :
  flat_interest p = false -> ~ r == 0 ->
  0 < r /\ 1 < (1 + r) ^ n /\ base * ((1 + r) ^ n - 1) == P * r * (1 + r) ^ n.
Proof.
  intros Hf Hr. pose proof valid_r_nonneg as Hr0.
  assert (Hrpos : 0 < r).
  { apply Qle_lteq in Hr0. destruct Hr0 as [H | H]; [exact H|].
    symmetry in H. contradiction. }
  pose proof (growth_gt_1 r n Hrpos (n_periods_pos p)) as Hg.
  split; [exact Hrpos|]. split; [exact Hg|].
  unfold base_payment in Hbase. cbv zeta in Hbase.
  rewrite Hf in Hbase. fold r in Hbase. fold n in Hbase. fold P in Hbase.
  destruct (Qeq_bool r 0) eqn:E.
  { apply Qeq_bool_iff in E. contradiction. }
  apply div_checked_inv in Hbase. destruct Hbase as [_ ->].
  field. lra.
Qed.

(** The interest of a period never exceeds the base payment. *)
Lemma interest_le_base (b : Q) : b <= P -> interest_at p b <= base.
Proof.
  intros Hb. pose proof valid_P_nonneg as HP. pose proof valid_r_nonneg as Hr.
  pose proof valid_n as Hn.
  unfold interest_at. fold P r.
  destruct (flat_interest p) eqn:Hf.
  - pose proof (flat_principal_part Hf) as H.
    assert (0 <= P / inject_Z n) by (apply Qle_shift_div_l; lra).
    lra.
  - destruct (Qeq_dec r 0) as [Hz | Hnz].
    + rewrite (zero_rate_base Hf Hz), Hz.
      assert (0 <= P / inject_Z n) by (apply Qle_shift_div_l; lra).
      lra.
    + destruct (annuity_base Hf Hnz) as (Hrpos & Hg & Hb').
      assert (b * r <= P * r) by (apply Qmult_le_compat_r; assumption).
      assert (0 <= P * r) by (apply Qmult_le_0_compat; assumption).
      assert (P * r <= base); [|lra].
      set (D := (1 + r) ^ n - 1) in *.
      assert (HD : 0 < D) by (unfold D; lra).
      assert (E : (base - P * r) * D == P * r) by (unfold D in *; lra).
      destruct (Qlt_le_dec base (P * r)) as [Hlt | Hle]; [|exact Hle].
      exfalso. assert ((base - P * r) * D < 0); [|lra].
      setoid_replace ((base - P * r) * D) with (- ((P * r - base) * D)) by ring.
      assert (0 < (P * r - base) * D) by (apply Qmult_lt_0_compat; lra).
      lra.
Qed.

Lemma base_nonneg : 0 <= base.
Proof.
  pose proof valid_P_nonneg as HP. pose proof valid_r_nonneg as Hr.
  pose proof (interest_le_base P (Qle_refl P)) as H.
  unfold interest_at in H. fold P r in H.
  assert (0 <= P * r) by (apply Qmult_le_0_compat; assumption).
  destruct (flat_interest p); lra.
Qed.

End ValidRun.

(** ** The scheduled balance *)

#[export] Instance scheduled_next_proper p base :
  Proper (Qeq ==> Qeq) (scheduled_next p base).
Proof. intros x y E. unfold scheduled_next. rewrite E. reflexivity. Qed.

Section ScheduledBalance.

Variable p : LoanParameters.
Variable base : Q.
Hypothesis Hvalid : valid_parameters p.
Hypothesis Hbase : base_payment p = Some base.

Let P := principal_with_fees p.
Let r := rate p.
Let n := n_periods p.
Let N := Z.to_nat (n_periods p).
Let S_ := scheduled_bal p base.

Lemma scheduled_next_mono (b b' : Q) :
  b <= b' -> scheduled_next p base b <= scheduled_next p base b'.
Proof.
  intros H. pose proof (valid_r_nonneg p Hvalid) as Hr.
  unfold scheduled_next, interest_at. destruct (flat_interest p); [lra|].
  assert (b * rate p <= b' * rate p) by (apply Qmult_le_compat_r; assumption).
  lra.
Qed.

Lemma scheduled_next_le (b : Q) : b <= P -> scheduled_next p base b <= b.
Proof.
  intros H. pose proof (interest_le_base p base Hvalid Hbase b H).
  unfold scheduled_next. lra.
Qed.

Lemma scheduled_bal_le_P (i : nat) : S_ i <= P.
Proof.
  induction i as [|i IH]; [apply Qle_refl|].
  unfold S_ in *. cbn [scheduled_bal].
  pose proof (scheduled_next_le _ IH). lra.
Qed.

Lemma scheduled_bal_step (i : nat) : S_ (S i) <= S_ i.
Proof. apply scheduled_next_le, scheduled_bal_le_P. Qed.

Lemma scheduled_bal_antitone (i j : nat) : (i <= j)%nat -> S_ j <= S_ i.
Proof.
  induction 1 as [|j Hij IH]; [apply Qle_refl|].
  pose proof (scheduled_bal_step j). lra.
Qed.

(** Flat method and zero rate: the schedule takes off the same amount
    every period. *)
Lemma scheduled_bal_linear (i : nat) :
  flat_interest p = true \/ r == 0 ->
  S_ i == P - inject_Z (Z.of_nat i) * (P / inject_Z n).
Proof.
  intros Hcase.
  assert (Hstep : forall b, scheduled_next p base b == b - P / inject_Z n).
  { intros b. unfold scheduled_next, interest_at. fold P r.
    destruct (flat_interest p) eqn:Hf.
    - pose proof (flat_principal_part p base Hvalid Hbase Hf) as H.
      fold P r n in H. lra.
    - destruct Hcase as [Hc | Hz]; [discriminate|].
      pose proof (zero_rate_base p base Hbase Hf Hz) as H. fold P n in H.
      rewrite Hz, H. ring. }
  induction i as [|i IH].
  - unfold S_. cbn [scheduled_bal]. fold P. change (inject_Z (Z.of_nat 0)) with 0. ring.
  - unfold S_ in *. cbn [scheduled_bal]. rewrite Hstep, IH.
    rewrite Nat2Z.inj_succ, <- Z.add_1_r, inject_Z_plus.
    change (inject_Z 1) with 1. ring.
Qed.

(** Reducing balance at a positive rate: the annuity recurrence. *)
Lemma scheduled_bal_annuity (i : nat) :
  flat_interest p = false -> ~ r == 0 ->
  S_ i == P * (1 + r) ^ Z.of_nat i - base * ((1 + r) ^ Z.of_nat i - 1) / r.
Proof.
  intros Hf Hr.
  destruct (annuity_base p base Hvalid Hbase Hf Hr) as (Hrpos & _ & _).
  fold r in Hrpos.
  induction i as [|i IH].
  - unfold S_. cbn [scheduled_bal]. fold P. change (Z.of_nat 0) with 0%Z.
    rewrite Qpower_0_r. field. exact Hr.
  - unfold S_ in *. cbn [scheduled_bal]. unfold scheduled_next at 1.
    unfold interest_at. rewrite Hf. fold r. rewrite IH.
    rewrite Nat2Z.inj_succ, <- Z.add_1_r.
    rewrite Qpower_plus by lra. rewrite Qpower_1_r.
    field. exact Hr.
Qed.

(** After the nominal term the schedule has repaid everything. *)
Lemma scheduled_bal_final : S_ N == 0.
Proof.
  pose proof (valid_n p) as Hn. fold n in Hn.
  assert (HN : Z.of_nat N = n).
  { unfold N, n. apply Z2Nat.id. pose proof (n_periods_pos p). lia. }
  destruct (flat_interest p) eqn:Hf.
  - pose proof (scheduled_bal_linear N (or_introl Hf)) as E.
    rewrite E, HN. field. lra.
  - destruct (Qeq_dec r 0) as [Hz | Hnz].
    + pose proof (scheduled_bal_linear N (or_intror Hz)) as E.
      rewrite E, HN. field. lra.
    + pose proof (scheduled_bal_annuity N Hf Hnz) as E.
      rewrite E, HN.
      destruct (annuity_base p base Hvalid Hbase Hf Hnz) as (Hrpos & Hg & He).
      fold r n P in Hg, He.
      setoid_replace (base * ((1 + r) ^ n - 1) / r)
        with (P * (1 + r) ^ n); [ring|].
      rewrite He. field. exact Hnz.
Qed.

Lemma scheduled_bal_nonneg (i : nat) : (i <= N)%nat -> 0 <= S_ i.
Proof.
  intros H. rewrite <- scheduled_bal_final. apply scheduled_bal_antitone, H.
Qed.

End ScheduledBalance.

(** ** The running balance of a valid run *)

Lemma bal_state_after_S p base i :
  bal (state_after p base (S i)) == next_bal p base (bal (state_after p base i)).
Proof. cbn [state_after]. apply body_bal. Qed.

Lemma record_at_Balance p base i :
  Balance (record_at p base (S i)) = round2 (bal (state_after p base (S i))).
Proof. reflexivity. Qed.

Lemma nth_error_records p base m i row :
  nth_error (map (record_at p base) (seq 1 m)) i = Some row ->
  (i < m)%nat /\ row = record_at p base (S i).
Proof.
  rewrite nth_error_map_seq. destruct (Nat.ltb_spec i m) as [Hlt | Hge]; [|discriminate].
  intros Hrow. injection Hrow as <-. split; [assumption | reflexivity].
Qed.

Lemma In_records p base m row :
  In row (map (record_at p base) (seq 1 m)) ->
  exists i, (i < m)%nat /\ row = record_at p base (S i).
Proof.
  intros H. apply in_map_iff in H. destruct H as (j & <- & Hj).
  apply in_seq in Hj. exists (pred j). split; [lia|].
  f_equal. lia.
Qed.

Lemma last_records p base m dflt :
  last (map (record_at p base) (seq 1 (S m))) dflt = record_at p base (S m).
Proof. rewrite seq_S, map_app. cbn [map]. apply last_last. Qed.

Section RunInvariants.

Variable p : LoanParameters.
Variable base : Q.
Hypothesis Hvalid : valid_parameters p.
Hypothesis Hbase : base_payment p = Some base.

Let P := principal_with_fees p.
Let N := Z.to_nat (n_periods p).
Let B (i : nat) : Q := bal (state_after p base i).

Lemma extra_nonneg : 0 <= extra_per_period p.
Proof. apply Hvalid. Qed.

Lemma bal_after_nonneg (i : nat) : 0 <= B i.
Proof.
  destruct i as [|i].
  - apply (valid_P_nonneg p Hvalid).
  - unfold B. rewrite bal_state_after_S. apply next_bal_nonneg.
Qed.

Lemma next_bal_le (b : Q) : 0 <= b -> b <= P -> next_bal p base b <= b.
Proof.
  intros H0 HP. rewrite (next_bal_scheduled p base b extra_nonneg).
  pose proof (scheduled_next_le p base Hvalid Hbase b HP) as Hs.
  unfold scheduled_next in Hs. pose proof extra_nonneg.
  apply Q.max_lub; lra.
Qed.

Lemma bal_after_le_P (i : nat) : B i <= P.
Proof.
  induction i as [|i IH]; [apply Qle_refl|].
  pose proof (next_bal_le _ (bal_after_nonneg i) IH) as Hstep.
  unfold B in *. rewrite bal_state_after_S. lra.
Qed.

(** The running balance never grows. *)
Lemma bal_after_step (i : nat) : B (S i) <= B i.
Proof.
  unfold B. rewrite bal_state_after_S.
  apply next_bal_le; [apply bal_after_nonneg | apply bal_after_le_P].
Qed.

(** Up to the nominal term it stays at or below the scheduled balance. *)
Lemma bal_after_le_scheduled (i : nat) :
  (i <= N)%nat -> B i <= scheduled_bal p base i.
Proof.
  induction i as [|i IH]; intros Hi; [apply Qle_refl|].
  unfold B in *. rewrite bal_state_after_S.
  rewrite (next_bal_scheduled p base _ extra_nonneg).
  assert (IH' : bal (state_after p base i) <= scheduled_bal p base i) by (apply IH; lia).
  pose proof (scheduled_next_mono p base Hvalid _ _ IH') as Hm.
  pose proof (scheduled_bal_nonneg p base Hvalid Hbase (S i) Hi) as Hn.
  cbn [scheduled_bal] in *. unfold scheduled_next in Hm at 1.
  pose proof extra_nonneg.
  apply Q.max_lub; lra.
Qed.

(** When the loop is left, nothing is owed. *)
Lemma final_balance_zero : B (tenure p base) == 0.
Proof.
  destruct (run_prefix p base) as (Hm & _ & _ & _ & Hend).
  apply Qle_antisym; [|apply bal_after_nonneg].
  destruct (Nat.eq_dec (tenure p base) N) as [E | NE].
  - rewrite E. rewrite <- (scheduled_bal_final p base Hvalid Hbase).
    apply bal_after_le_scheduled. apply Nat.le_refl.
  - apply Hend. fold N in Hm. fold N. lia.
Qed.

End RunInvariants.


Lemma valid_flat_loan : valid_parameters flat_loan.
Proof. unfold valid_parameters. cbn. repeat split; try discriminate; lia. Qed.


(** ** Column sums *)

Lemma col_sum_app col rows row :
  col_sum col (rows ++ [row]) = col_sum col rows + col row.
Proof. unfold col_sum. rewrite fold_left_app. reflexivity. Qed.

Lemma col_sum_records col p base m :
  col_sum col (map (record_at p base) (seq 1 m))
  == sum_upto (fun j => col (record_at p base (S j))) m.
Proof.
  induction m as [|m IH]; [reflexivity|].
  rewrite seq_S, map_app. cbn [map sum_upto]. rewrite col_sum_app, IH.
  reflexivity.
Qed.

Lemma sum_upto_ext (g h : nat -> Q) (m : nat) :
  (forall j, (j < m)%nat -> g j == h j) -> sum_upto g m == sum_upto h m.
Proof.
  induction m as [|m IH]; intros H; [reflexivity|].
  cbn [sum_upto]. rewrite IH, (H m) by (intros; try apply H; lia). reflexivity.
Qed.

Lemma sum_upto_plus (g h : nat -> Q) (m : nat) :
  sum_upto (fun j => g j + h j) m == sum_upto g m + sum_upto h m.
Proof. induction m as [|m IH]; [reflexivity|]. cbn [sum_upto]. rewrite IH. ring. Qed.

Lemma sum_upto_const (c : Q) (m : nat) :
  sum_upto (fun _ => c) m == inject_Z (Z.of_nat m) * c.
Proof.
  induction m as [|m IH]; [cbn; ring|].
  cbn [sum_upto]. rewrite IH, Nat2Z.inj_succ, <- Z.add_1_r, inject_Z_plus.
  change (inject_Z 1) with 1. ring.
Qed.

Lemma sum_upto_le (g h : nat -> Q) (m : nat) :
  (forall j, (j < m)%nat -> g j <= h j) -> sum_upto g m <= sum_upto h m.
Proof.
  induction m as [|m IH]; intros H; [apply Qle_refl|].
  cbn [sum_upto]. apply Qplus_le_compat; [apply IH; intros; apply H; lia | apply H; lia].
Qed.

(** Rounding every term moves a sum of [m] terms by at most [m] half
    hundredths. *)
Lemma sum_upto_round2_near (g : nat -> Q) (m : nat) :
  Qabs (sum_upto (fun j => round2 (g j)) m - sum_upto g m)
  <= inject_Z (Z.of_nat m) * (1 # 200).
Proof.
  apply Qabs_Qle_condition.
  induction m as [|m IH]; [cbn; split; discriminate|].
  cbn [sum_upto]. rewrite Nat2Z.inj_succ, <- Z.add_1_r, inject_Z_plus.
  change (inject_Z 1) with 1. destruct (round2_near (g m)). lra.
Qed.

Lemma two_decimals_sum_upto (g : nat -> Q) (m : nat) :
  (forall j, two_decimals (g j)) -> two_decimals (sum_upto g m).
Proof.
  intros H. induction m as [|m IH]; [apply two_decimals_0|].
  cbn [sum_upto]. apply two_decimals_plus; [exact IH | apply H].
Qed.

(** ** What the records add up to *)

Lemma record_at_fields p base i :
  Payment (record_at p base (S i)) = round2 base /\
  Principal (record_at p base (S i))
    = round2 (principal_at p base (bal (state_after p base i))) /\
  Interest (record_at p base (S i))
    = round2 (interest_at p (bal (state_after p base i))) /\
  Extra (record_at p base (S i))
    = round2 (extra_at p base (bal (state_after p base i))) /\
  Insurance (record_at p base (S i)) = round2 (insurance_per_period p) /\
  Cumulative_Paid (record_at p base (S i))
    = round2 (cumulative (state_after p base (S i))).
Proof. repeat split; reflexivity. Qed.

(** What has been repaid (principal and extra, unrounded) is what the
    balance went down by. *)
Lemma repaid_telescopes p base m :
  sum_upto (fun j => principal_at p base (bal (state_after p base j))
                     + extra_at p base (bal (state_after p base j))) m
  == principal_with_fees p - bal (state_after p base m).
Proof.
  induction m as [|m IH]; [cbn; ring|].
  cbn [sum_upto]. rewrite IH, bal_state_after_S, next_bal_exact. ring.
Qed.

(** The running total is the sum of the unrounded cash payments. *)
Lemma cumulative_state_after p base m :
  cumulative (state_after p base m)
  == sum_upto (fun j => payment_at p base (bal (state_after p base j))) m.
Proof.
  induction m as [|m IH]; [reflexivity|].
  cbn [sum_upto state_after]. rewrite body_cumulative, IH. reflexivity.
Qed.

Lemma repaid_fields_near p base m :
  Qabs (col_sum Principal (map (record_at p base) (seq 1 m))
        + col_sum Extra (map (record_at p base) (seq 1 m))
        - (principal_with_fees p - bal (state_after p base m)))
  <= inject_Z (Z.of_nat m) * (1 # 100).
Proof.
  rewrite !col_sum_records. rewrite <- repaid_telescopes, sum_upto_plus.
  pose proof (sum_upto_round2_near
    (fun j => principal_at p base (bal (state_after p base j))) m) as H1.
  pose proof (sum_upto_round2_near
    (fun j => extra_at p base (bal (state_after p base j))) m) as H2.
  apply Qabs_Qle_condition in H1. apply Qabs_Qle_condition in H2.
  apply Qabs_Qle_condition.
  cbv beta in *.
  change (fun j => Principal (record_at p base (S j)))
    with (fun j => round2 (principal_at p base (bal (state_after p base j)))).
  change (fun j => Extra (record_at p base (S j)))
    with (fun j => round2 (extra_at p base (bal (state_after p base j)))).
  lra.
Qed.




(** ** The summary totals *)

Lemma summarize_totals p rows :
  rows <> [] ->
  Total_Interest (summarize p rows) = round2 (col_sum Interest rows) /\
  Total_Extra (summarize p rows) = round2 (col_sum Extra rows) /\
  Total_Insurance (summarize p rows) = round2 (col_sum Insurance rows) /\
  Total_Paid (summarize p rows)
    = round2 (col_sum Payment rows + col_sum Extra rows + col_sum Insurance rows) /\
  Tenure (summarize p rows) = Z.of_nat (length rows).
Proof. destruct rows; [contradiction|]. intros _. repeat split; reflexivity. Qed.

Lemma records_nonempty p base m : (1 <= m)%nat -> map (record_at p base) (seq 1 m) <> [].
Proof. destruct m; [lia | discriminate]. Qed.

(** A column of two-decimal fields adds up to a two-decimal amount, which
    the final [round(..., 2)] of the summary leaves as it is. *)
Lemma two_decimals_col_sum col p base m :
  (forall i, two_decimals (col (record_at p base (S i)))) ->
  two_decimals (col_sum col (map (record_at p base) (seq 1 m))).
Proof.
  intros H. apply (two_decimals_comp (sum_upto (fun j => col (record_at p base (S j))) m)).
  - symmetry. apply col_sum_records.
  - apply two_decimals_sum_upto. exact H.
Qed.

Lemma two_decimals_fields p base i :
  two_decimals (Payment (record_at p base (S i))) /\
  two_decimals (Principal (record_at p base (S i))) /\
  two_decimals (Interest (record_at p base (S i))) /\
  two_decimals (Extra (record_at p base (S i))) /\
  two_decimals (Insurance (record_at p base (S i))) /\
  two_decimals (Balance (record_at p base (S i))) /\
  two_decimals (Cumulative_Paid (record_at p base (S i))).
Proof. repeat split; apply two_decimals_round2. Qed.

Lemma summary_totals_exact p base m :
  (1 <= m)%nat ->
  let rows := map (record_at p base) (seq 1 m) in
  Total_Interest (summarize p rows) == col_sum Interest rows /\
  Total_Extra (summarize p rows) == col_sum Extra rows /\
  Total_Insurance (summarize p rows) == col_sum Insurance rows /\
  Total_Paid (summarize p rows)
    == col_sum Payment rows + col_sum Extra rows + col_sum Insurance rows.
Proof.
  intros Hm rows.
  destruct (summarize_totals p rows (records_nonempty p base m Hm))
    as (-> & -> & -> & -> & _).
  assert (HP : two_decimals (col_sum Payment rows)).
  { apply (two_decimals_col_sum Payment p base m). intros i.
    exact (proj1 (two_decimals_fields p base i)). }
  assert (HI : two_decimals (col_sum Interest rows)).
  { apply (two_decimals_col_sum Interest p base m). intros i.
    exact (proj1 (proj2 (proj2 (two_decimals_fields p base i)))). }
  assert (HE : two_decimals (col_sum Extra rows)).
  { apply (two_decimals_col_sum Extra p base m). intros i.
    exact (proj1 (proj2 (proj2 (proj2 (two_decimals_fields p base i))))). }
  assert (HS : two_decimals (col_sum Insurance rows)).
  { apply (two_decimals_col_sum Insurance p base m). intros i.
    exact (proj1 (proj2 (proj2 (proj2 (proj2 (two_decimals_fields p base i)))))). }
  repeat split; apply round2_two_decimals; try assumption.
  repeat apply two_decimals_plus; assumption.
Qed.

(** ** Runs without extra payment *)

Section NoExtra.

Variable p : LoanParameters.
Variable base : Q.
Hypothesis Hvalid : valid_parameters p.
Hypothesis Hbase : base_payment p = Some base.
Hypothesis Hextra : extra_per_period p == 0.

Let N := Z.to_nat (n_periods p).

Lemma no_extra_at (b : Q) : extra_at p base b == 0.
Proof.
  unfold extra_at. rewrite Hextra. apply Q.min_l. apply Q.le_max_l.
Qed.

(** Without extra payments the run follows the schedule. *)
Lemma bal_eq_scheduled (i : nat) :
  (i <= N)%nat -> bal (state_after p base i) == scheduled_bal p base i.
Proof.
  induction i as [|i IH]; intros Hi; [reflexivity|].
  rewrite bal_state_after_S.
  rewrite (next_bal_scheduled p base _ (extra_nonneg p Hvalid)).
  rewrite Hextra, IH by lia.
  pose proof (scheduled_bal_nonneg p base Hvalid Hbase (S i) Hi) as Hn.
  cbn [scheduled_bal] in *. unfold scheduled_next in *.
  rewrite Q.max_r by lra. ring.
Qed.

(** Every period is paid in full: the principal is never clamped. *)
Lemma payment_in_full (i : nat) :
  (i < N)%nat ->
  payment_at p base (bal (state_after p base i)) == base + insurance_per_period p.
Proof.
  intros Hi. unfold payment_at. rewrite no_extra_at.
  rewrite (bal_eq_scheduled i) by lia.
  pose proof (scheduled_bal_nonneg p base Hvalid Hbase (S i) Hi) as Hn.
  cbn [scheduled_bal] in Hn. unfold scheduled_next in Hn.
  unfold principal_at. rewrite Q.min_l by lra. ring.
Qed.

Lemma cumulative_no_extra (m : nat) :
  (m <= N)%nat ->
  cumulative (state_after p base m)
  == sum_upto (fun _ => base) m + sum_upto (fun _ => insurance_per_period p) m.
Proof.
  intros Hm. rewrite cumulative_state_after, <- sum_upto_plus.
  apply sum_upto_ext. intros j Hj. apply payment_in_full. lia.
Qed.

Lemma paid_fields_near :
  let m := tenure p base in
  let rows := map (record_at p base) (seq 1 m) in
  Qabs (round2 (cumulative (state_after p base m)) - Total_Paid (summarize p rows))
  <= inject_Z (Z.of_nat m) * (1 # 100) + (1 # 200).
Proof.
  intros m rows.
  destruct (run_prefix p base) as (Hm & _). fold m in Hm. fold N in Hm.
  destruct (summary_totals_exact p base m (proj1 Hm)) as (_ & _ & _ & HT).
  subst rows. rewrite HT.
  rewrite !col_sum_records.
  rewrite (sum_upto_ext (fun j => Extra (record_at p base (S j))) (fun _ => 0)).
  2:{ intros j _. cbn [record_at Extra row_of pred]. rewrite (round2_comp _ 0).
      - apply round2_0.
      - apply no_extra_at. }
  rewrite (sum_upto_const 0).
  pose proof (round2_near (cumulative (state_after p base m))) as Hc.
  pose proof (cumulative_no_extra m (proj2 Hm)) as Hsum.
  pose proof (sum_upto_round2_near (fun _ => base) m) as H1.
  pose proof (sum_upto_round2_near (fun _ => insurance_per_period p) m) as H2.
  apply Qabs_Qle_condition in H1. apply Qabs_Qle_condition in H2.
  apply Qabs_Qle_condition. cbv beta in *.
  change (fun j => Payment (record_at p base (S j))) with (fun _ : nat => round2 base).
  change (fun j => Insurance (record_at p base (S j)))
    with (fun _ : nat => round2 (insurance_per_period p)).
  lra.
Qed.

End NoExtra.




(** ** Zero rate, reducing balance *)

Lemma zero_rate p : annual_rate_pct p == 0 -> rate p == 0.
Proof. intros H. unfold rate. rewrite H. unfold Qdiv. ring. Qed.

Lemma zero_rate_base_payment p :
  annual_rate_pct p == 0 -> flat_interest p = false ->
  base_payment p = Some (principal_with_fees p / inject_Z (n_periods p)).
Proof.
  intros Hr Hf. unfold base_payment. cbv zeta. rewrite Hf.
  pose proof (zero_rate p Hr) as Hz. apply Qeq_bool_iff in Hz. rewrite Hz.
  apply div_checked_Some. pose proof (inject_Z_n_periods p). lra.
Qed.

Section ZeroRate.

Variable p : LoanParameters.
Hypothesis Hrate : annual_rate_pct p == 0.
Hypothesis Hflat : flat_interest p = false.
Hypothesis Hextra : 0 <= extra_per_period p.

Let base := principal_with_fees p / inject_Z (n_periods p).

Lemma zero_rate_interest (b : Q) : interest_at p b == 0.
Proof. unfold interest_at. rewrite Hflat, (zero_rate p Hrate). ring. Qed.

Lemma zero_rate_principal_le (b : Q) : principal_at p base b <= base.
Proof.
  unfold principal_at. rewrite zero_rate_interest.
  eapply Qle_trans; [apply Q.le_min_l|]. lra.
Qed.

(** A period after which something is still owed took off the full
    [n]-th part. *)
Lemma zero_rate_principal_full (b : Q) :
  0 < next_bal p base b -> principal_at p base b == base.
Proof.
  intros Hpos. unfold principal_at. rewrite zero_rate_interest.
  destruct (Qlt_le_dec b (base - 0)) as [Hlt | Hle].
  - exfalso. rewrite (next_bal_scheduled p base b Hextra) in Hpos.
    rewrite zero_rate_interest in Hpos.
    rewrite Q.max_l in Hpos by lra. lra.
  - rewrite Q.min_l by lra. ring.
Qed.

End ZeroRate.




(** ** Where the rounding takes place *)

Lemma nth_error_states p base m i s :
  nth_error (map (state_after p base) (seq 1 m)) i = Some s ->
  (i < m)%nat /\ s = state_after p base (S i).
Proof.
  rewrite nth_error_map_seq. destruct (Nat.ltb_spec i m) as [Hlt | Hge]; [|discriminate].
  intros Hs. injection Hs as <-. split; [assumption | reflexivity].
Qed.

Lemma cumulative_state_after_S p base i :
  cumulative (state_after p base (S i))
  == cumulative (state_after p base i) + payment_at p base (bal (state_after p base i)).
Proof. cbn [state_after]. apply body_cumulative. Qed.

(** [C8], amended.  Whenever [compute_schedule] returns: every monetary
    field of every record is a two-decimal amount, rounded when the record
    is made; the balance and the cumulative paid of a record are the
    roundings of the running values, and these running values are carried
    from period to period unrounded (the unrounded principal and extra come
    off the balance, the unrounded cash payment is added to the cumulative
    paid); the totals of the summary are the sums of the rounded fields. *)
Theorem rounding_policy (p : LoanParameters) (rows : list Row) (summ : Summary) :
  compute_schedule p = Some (rows, summ) ->
  (forall row, In row rows ->
     two_decimals (Payment row) /\ two_decimals (Principal row) /\
     two_decimals (Interest row) /\ two_decimals (Extra row) /\
     two_decimals (Insurance row) /\ two_decimals (Balance row) /\
     two_decimals (Cumulative_Paid row)) /\
  length (run_states p) = length rows /\
  (forall i row s, nth_error rows i = Some row -> nth_error (run_states p) i = Some s ->
     Balance row == round2 (bal s) /\ Cumulative_Paid row == round2 (cumulative s)) /\
  (exists base, base_payment p = Some base /\
     forall i s s' row', nth_error (run_states p) i = Some s ->
       nth_error (run_states p) (S i) = Some s' ->
       nth_error rows (S i) = Some row' ->
       Principal row' == round2 (principal_at p base (bal s)) /\
       Interest row' == round2 (interest_at p (bal s)) /\
       Extra row' == round2 (extra_at p base (bal s)) /\
       bal s' == bal s - principal_at p base (bal s) - extra_at p base (bal s) /\
       cumulative s' == cumulative s + payment_at p base (bal s)) /\
  Total_Interest summ == col_sum Interest rows /\
  Total_Extra summ == col_sum Extra rows /\
  Total_Insurance summ == col_sum Insurance rows /\
  Total_Paid summ == col_sum Payment rows + col_sum Extra rows + col_sum Insurance rows.
Proof.
  intros H.
  destruct (compute_schedule_Some p rows summ H) as (base & Hb & Hrows & Hsumm).
  destruct (run_prefix p base) as (Hm & _).
  rewrite (run_states_eq p base Hb). subst rows summ.
  split; [|split; [|split; [|split]]].
  - intros row Hin. apply In_records in Hin. destruct Hin as (i & _ & ->).
    apply two_decimals_fields.
  - rewrite !length_map. reflexivity.
  - intros i row s Hrow Hs.
    apply nth_error_records in Hrow. destruct Hrow as [_ ->].
    apply nth_error_states in Hs. destruct Hs as [_ ->].
    split; reflexivity.
  - exists base. split; [exact Hb|].
    intros i s s' row' Hs Hs' Hrow.
    apply nth_error_records in Hrow. destruct Hrow as [_ ->].
    apply nth_error_states in Hs. destruct Hs as [_ ->].
    apply nth_error_states in Hs'. destruct Hs' as [_ ->].
    destruct (record_at_fields p base (S i)) as (_ & -> & -> & -> & _).
    split; [reflexivity|]. split; [reflexivity|]. split; [reflexivity|]. split.
    + rewrite bal_state_after_S. apply next_bal_exact.
    + apply cumulative_state_after_S.
  - apply (summary_totals_exact p base (tenure p base)). lia.
Qed.

Lemma rounding_policy_witness :
  exists rows summ,
    compute_schedule zero_rate_loan = Some (rows, summ) /\
    (forall i row s, nth_error rows i = Some row ->
       nth_error (run_states zero_rate_loan) i = Some s ->
       Balance row == round2 (bal s) /\ Cumulative_Paid row == round2 (cumulative s)) /\
    Total_Paid summ == col_sum Payment rows + col_sum Extra rows + col_sum Insurance rows.
Proof.
  eexists. eexists. split; [vm_compute; reflexivity|].
  pose proof (rounding_policy zero_rate_loan _ _ eq_refl) as H.
  split; [apply H | apply H].
Defined.

(** [C8] as stated fails: the running values are accumulated unrounded.  On
    the 100 loan at 0 % the last cumulative paid is 100.00 where the rounded
    components of the twelve records add up to 99.96, and the balance of the
    second record is 83.33 where the balance of the first less the principal
    and extra of the second is 91.67 - 8.33 = 83.34. *)
Lemma running_values_accumulate_unrounded :
  exists rows summ r1 r2 r12,
    compute_schedule zero_rate_loan = Some (rows, summ) /\
    nth_error rows 0 = Some r1 /\ nth_error rows 1 = Some r2 /\
    nth_error rows 11 = Some r12 /\ length rows = 12%nat /\
    ~ Cumulative_Paid r12
      == col_sum Principal rows + col_sum Interest rows
         + col_sum Extra rows + col_sum Insurance rows /\
    ~ Balance r2 == Balance r1 - Principal r2 - Extra r2.
Proof.
  do 5 eexists.
  split; [vm_compute; reflexivity|].
  split; [reflexivity|]. split; [reflexivity|]. split; [reflexivity|].
  split; [reflexivity|].
  split; vm_compute; discriminate.
Qed.

(** ** The flat loan of 100,000 at 10 % over one year *)

(** [C2], amended: the schedule has twelve records, the interest of each is
    100000 x 0.10 / 12 rounded to two decimals, 833.33, and Total Interest
    is the sum of these rounded fields, 9999.96. *)
Theorem flat_loan_interest :
  exists rows summ,
    compute_schedule flat_loan = Some (rows, summ) /\
    length rows = 12%nat /\
    Forall (fun row => Interest row == round2 (100000 * (10 / 100) / 12)
                       /\ Interest row == 83333 # 100) rows /\
    Total_Interest summ == 999996 # 100.
Proof.
  eexists. eexists. split; [vm_compute; reflexivity|].
  split; [reflexivity|]. split.
  - repeat constructor.
  - reflexivity.
Qed.

(** [C2] as stated fails: no record carries the unrounded 100000 x 0.10 / 12
    as its interest, and Total Interest is 9999.96, not 10000. *)
Lemma flat_loan_interest_is_rounded :
  exists rows summ,
    compute_schedule flat_loan = Some (rows, summ) /\
    Forall (fun row => ~ Interest row == 100000 * (10 / 100) / 12) rows /\
    ~ Total_Interest summ == 10000.
Proof.
  eexists. eexists. split; [vm_compute; reflexivity|].
  split.
  - repeat constructor; vm_compute; discriminate.
  - vm_compute. discriminate.
Qed.

(** ** Payment selection *)


(** ** Positive principal: the schedule takes the whole term *)

Section PositivePrincipal.

Variable p : LoanParameters.
Variable base : Q.
Hypothesis Hvalid : valid_parameters p.
Hypothesis Hbase : base_payment p = Some base.
Hypothesis Hpos : 0 < principal_with_fees p.

Let P := principal_with_fees p.
Let r := rate p.
Let n := n_periods p.
Let N := Z.to_nat (n_periods p).

(** The base payment covers more than the interest. *)
Lemma interest_lt_base (b : Q) : b <= P -> interest_at p b < base.
Proof.
  intros Hb. pose proof (valid_r_nonneg p Hvalid) as Hr. fold r in Hr.
  pose proof (valid_n p) as Hn. fold n in Hn.
  unfold interest_at. fold P r.
  assert (Hpn : 0 < P / inject_Z n) by (apply Qlt_shift_div_l; unfold P; lra).
  destruct (flat_interest p) eqn:Hf.
  - pose proof (flat_principal_part p base Hvalid Hbase Hf) as H. fold P r n in H. lra.
  - destruct (Qeq_dec r 0) as [Hz | Hnz].
    + pose proof (zero_rate_base p base Hbase Hf Hz) as H. fold P n in H.
      rewrite Hz, H. lra.
    + destruct (annuity_base p base Hvalid Hbase Hf Hnz) as (Hrpos & Hg & He).
      fold r n P in Hrpos, Hg, He.
      assert (b * r <= P * r) by (apply Qmult_le_compat_r; assumption).
      assert (0 < P * r) by (apply Qmult_lt_0_compat; assumption).
      assert (P * r < base); [|lra].
      set (D := (1 + r) ^ n - 1) in *.
      assert (HD : 0 < D) by (unfold D; lra).
      assert (E : (base - P * r) * D == P * r) by (unfold D in *; lra).
      destruct (Qlt_le_dec (P * r) base) as [Hlt | Hle]; [exact Hlt|].
      exfalso. assert ((base - P * r) * D <= 0); [|lra].
      setoid_replace ((base - P * r) * D) with (- ((P * r - base) * D)) by ring.
      assert (0 <= (P * r - base) * D) by (apply Qmult_le_0_compat; lra).
      lra.
Qed.

Lemma scheduled_bal_strict_step (i : nat) :
  scheduled_bal p base (S i) < scheduled_bal p base i.
Proof.
  pose proof (interest_lt_base _ (scheduled_bal_le_P p base Hvalid Hbase i)) as H.
  cbn [scheduled_bal]. unfold scheduled_next. lra.
Qed.

Lemma scheduled_bal_pos (i : nat) : (i < N)%nat -> 0 < scheduled_bal p base i.
Proof.
  intros Hi.
  pose proof (scheduled_bal_nonneg p base Hvalid Hbase (S i) Hi) as H.
  pose proof (scheduled_bal_strict_step i). lra.
Qed.

(** Without extra payments a positive principal is repaid in exactly
    [n] periods. *)
Lemma tenure_full : extra_per_period p == 0 -> tenure p base = N.
Proof.
  intros He.
  destruct (run_prefix p base) as (Hm & _ & _ & _ & Hend). fold N in Hm, Hend.
  destruct (Nat.eq_dec (tenure p base) N) as [E | NE]; [exact E|].
  exfalso. assert (Hlt : (tenure p base < N)%nat) by lia.
  specialize (Hend Hlt).
  rewrite (bal_eq_scheduled p base Hvalid Hbase He) in Hend by (fold N; lia).
  pose proof (scheduled_bal_pos _ Hlt). lra.
Qed.

End PositivePrincipal.

(** The loop is left at the latest when the unbroken run has repaid
    everything. *)
Lemma tenure_le p base k :
  (1 <= k)%nat -> bal (state_after p base k) <= 0 -> (tenure p base <= k)%nat.
Proof.
  intros Hk Hb. destruct (run_prefix p base) as (_ & _ & _ & Hpos & _).
  destruct (Nat.le_gt_cases (tenure p base) k) as [H | H]; [exact H|].
  exfalso. pose proof (Hpos k (conj Hk H)). lra.
Qed.

(** * Further properties of the engine *)

(** ** Termination of the divisions *)



(** ** The full term *)



(** ** Period numbers and due dates *)

Lemma d_state_after p base i :
  d (state_after p base i)
  = (start_date p + Z.of_nat i * period_days (compounding p))%Z.
Proof.
  induction i as [|i IH]; [cbn; lia|].
  cbn [state_after]. rewrite body_eq. cbn [d]. rewrite IH. lia.
Qed.

Lemma record_at_Period_Date p base i :
  Period (record_at p base (S i)) = (Z.of_nat i + 1)%Z /\
  Date (record_at p base (S i))
  = (start_date p + Z.of_nat i * period_days (compounding p))%Z.
Proof.
  split.
  - unfold record_at, row_of. cbn [Period]. lia.
  - unfold record_at, row_of. cbn [Date pred]. apply d_state_after.
Qed.

Lemma summarize_last_date p rows dflt :
  rows <> [] -> Last_Payment_Date (summarize p rows) = Date (last rows dflt).
Proof.
  destruct rows as [|row rows]; [contradiction|]. intros _.
  cbn [summarize Last_Payment_Date]. rewrite !last_cons.
  destruct rows as [|r' rows']; [reflexivity|].
  rewrite !last_cons. reflexivity.
Qed.

(** The records are numbered 1, 2, ... without gap, the first is due on the
    start date and each next one a fixed number of days later (30, 91 or
    365, by compounding); the summary's last payment date is the due date of
    the last record. *)
Theorem periods_and_due_dates (p : LoanParameters) (rows : list Row) (summ : Summary) :
  compute_schedule p = Some (rows, summ) ->
  (forall i row, nth_error rows i = Some row ->
     Period row = (Z.of_nat i + 1)%Z /\
     Date row = (start_date p + Z.of_nat i * period_days (compounding p))%Z) /\
  Last_Payment_Date summ
  = (start_date p + (Tenure summ - 1) * period_days (compounding p))%Z /\
  period_days (compounding p)
  = match compounding p with Monthly => 30 | Quarterly => 91 | Yearly => 365 end%Z.
Proof.
  intros H.
  destruct (compute_schedule_Some p rows summ H) as (base & Hb & Hrows & Hsumm).
  destruct (run_prefix p base) as (Hm & _).
  split; [|split].
  - intros i row Hrow. rewrite Hrows in Hrow.
    apply nth_error_records in Hrow. destruct Hrow as [_ ->].
    apply record_at_Period_Date.
  - assert (Hne : rows <> []) by (rewrite Hrows; apply records_nonempty; lia).
    rewrite Hsumm.
    rewrite (summarize_last_date p rows (record_at p base 0) Hne).
    destruct (summarize_totals p rows Hne) as (_ & _ & _ & _ & ->).
    rewrite Hrows, length_map, length_seq.
    destruct (tenure p base) as [|m]; [lia|].
    rewrite last_records.
    destruct (record_at_Period_Date p base m) as [_ ->]. f_equal. lia.
  - destruct (compounding p); reflexivity.
Qed.

Lemma periods_and_due_dates_witness :
  exists rows summ,
    compute_schedule zero_rate_loan_extra = Some (rows, summ) /\
    (forall i row, nth_error rows i = Some row ->
       Period row = (Z.of_nat i + 1)%Z /\
       Date row = (start_date zero_rate_loan_extra
                   + Z.of_nat i * period_days (compounding zero_rate_loan_extra))%Z) /\
    Last_Payment_Date summ = 60%Z.
Proof.
  eexists. eexists. split; [vm_compute; reflexivity|].
  pose proof (periods_and_due_dates zero_rate_loan_extra _ _ eq_refl) as H.
  split; [apply H | reflexivity].
Defined.

(** ** The headline figures *)

Lemma summarize_EMI p base m :
  (1 <= m)%nat ->
  EMI_Payment (summarize p (map (record_at p base) (seq 1 m))) == round2 base.
Proof.
  intros Hm. destruct m as [|m]; [lia|].
  cbn [seq map summarize EMI_Payment].
  destruct (record_at_fields p base 0) as (-> & _). apply round2_idem.
Qed.

(** The payment column is constant and equal to the EMI of the summary,
    also in a last period that pays less; the Total Paid of the summary is
    made of Tenure such payments, the extra payments and the insurance. *)
Theorem total_paid_decomposition (p : LoanParameters) (rows : list Row) (summ : Summary) :
  compute_schedule p = Some (rows, summ) ->
  (forall row, In row rows ->
     Payment row == EMI_Payment summ /\
     Insurance row == round2 (insurance_per_period p)) /\
  Total_Insurance summ == inject_Z (Tenure summ) * round2 (insurance_per_period p) /\
  Total_Paid summ
  == inject_Z (Tenure summ) * EMI_Payment summ + Total_Extra summ + Total_Insurance summ.
Proof.
  intros H.
  destruct (compute_schedule_Some p rows summ H) as (base & Hb & Hrows & Hsumm).
  destruct (run_prefix p base) as (Hm & _).
  assert (H1 : (1 <= tenure p base)%nat) by lia.
  pose proof (summarize_EMI p base _ H1) as HE.
  destruct (summary_totals_exact p base _ H1) as (_ & HX & HI & HT).
  cbv zeta in HX, HI, HT.
  destruct (summarize_totals p _ (records_nonempty p base _ H1)) as (_ & _ & _ & _ & HTen).
  rewrite length_map, length_seq in HTen.
  subst rows summ.
  assert (HP : col_sum Payment (map (record_at p base) (seq 1 (tenure p base)))
               == inject_Z (Z.of_nat (tenure p base)) * round2 base).
  { rewrite col_sum_records.
    change (fun j => Payment (record_at p base (S j))) with (fun _ : nat => round2 base).
    apply sum_upto_const. }
  assert (HS : col_sum Insurance (map (record_at p base) (seq 1 (tenure p base)))
               == inject_Z (Z.of_nat (tenure p base)) * round2 (insurance_per_period p)).
  { rewrite col_sum_records.
    change (fun j => Insurance (record_at p base (S j)))
      with (fun _ : nat => round2 (insurance_per_period p)).
    apply sum_upto_const. }
  split; [|split].
  - intros row Hin. apply In_records in Hin. destruct Hin as (i & _ & ->).
    destruct (record_at_fields p base i) as (-> & _ & _ & _ & -> & _).
    split; [symmetry; exact HE | reflexivity].
  - rewrite HTen, HI. exact HS.
  - rewrite HT, HTen, HE, HX, HI, HP. reflexivity.
Qed.

Lemma total_paid_decomposition_witness :
  exists rows summ,
    compute_schedule zero_rate_loan_extra = Some (rows, summ) /\
    Total_Paid summ
    == inject_Z (Tenure summ) * EMI_Payment summ + Total_Extra summ + Total_Insurance summ /\
    Total_Paid summ == 10499 # 100.
Proof.
  eexists. eexists. split; [vm_compute; reflexivity|].
  pose proof (total_paid_decomposition zero_rate_loan_extra _ _ eq_refl) as H.
  split; [apply H | reflexivity].
Defined.

(** ** Paying extra *)

Lemma sum_upto_more (g : nat -> Q) (m m' : nat) :
  (forall j, 0 <= g j) -> (m <= m')%nat -> sum_upto g m <= sum_upto g m'.
Proof.
  intros Hg. induction 1 as [|m' Hle IH]; [apply Qle_refl|].
  cbn [sum_upto]. pose proof (Hg m'). lra.
Qed.

Lemma valid_with_extra p e :
  valid_parameters p -> 0 <= e -> valid_parameters (with_extra p e).
Proof.
  intros (HP & HA & HY & HE & HF & HFp & HI) He.
  unfold valid_parameters. cbn. repeat split; assumption.
Qed.

Lemma interest_at_nonneg p b :
  valid_parameters p -> 0 <= b -> 0 <= interest_at p b.
Proof.
  intros Hv Hb. pose proof (valid_P_nonneg p Hv). pose proof (valid_r_nonneg p Hv).
  unfold interest_at. destruct (flat_interest p); apply Qmult_le_0_compat; assumption.
Qed.

Lemma interest_at_mono p b b' :
  valid_parameters p -> b <= b' -> interest_at p b <= interest_at p b'.
Proof.
  intros Hv Hb. pose proof (valid_r_nonneg p Hv).
  unfold interest_at. destruct (flat_interest p); [apply Qle_refl|].
  apply Qmult_le_compat_r; assumption.
Qed.

Section MoreExtra.

Variable p : LoanParameters.
Variable e : Q.
Variable base : Q.
Hypothesis Hvalid : valid_parameters p.
Hypothesis Hbase : base_payment p = Some base.
Hypothesis Hmore : extra_per_period p <= e.

Let q := with_extra p e.

Lemma more_extra_valid : valid_parameters q.
Proof. apply valid_with_extra; [exact Hvalid|]. pose proof (extra_nonneg p Hvalid). lra. Qed.

Lemma more_extra_base : base_payment q = Some base.
Proof. exact Hbase. Qed.

(** Paying more leaves less at every period. *)
Lemma more_extra_bal (i : nat) :
  bal (state_after q base i) <= bal (state_after p base i).
Proof.
  induction i as [|i IH]; [apply Qle_refl|].
  rewrite !bal_state_after_S.
  rewrite (next_bal_scheduled q base _ (extra_nonneg q more_extra_valid)).
  rewrite (next_bal_scheduled p base _ (extra_nonneg p Hvalid)).
  apply Q.max_le_compat_l.
  pose proof (scheduled_next_mono p base Hvalid _ _ IH) as Hs.
  unfold scheduled_next in Hs.
  change (interest_at q (bal (state_after q base i)))
    with (interest_at p (bal (state_after q base i))).
  change (extra_per_period q) with e. lra.
Qed.

Lemma more_extra_tenure : (tenure q base <= tenure p base)%nat.
Proof.
  destruct (run_prefix p base) as (Hm & _).
  apply tenure_le; [lia|].
  pose proof (more_extra_bal (tenure p base)) as H.
  pose proof (final_balance_zero p base Hvalid Hbase) as Hz. cbv beta zeta in Hz. lra.
Qed.

Lemma more_extra_interest :
  sum_upto (fun j => round2 (interest_at q (bal (state_after q base j)))) (tenure q base)
  <= sum_upto (fun j => round2 (interest_at p (bal (state_after p base j)))) (tenure p base).
Proof.
  eapply Qle_trans.
  - apply sum_upto_le. intros j _. apply round2_mono.
    change (interest_at q (bal (state_after q base j)))
      with (interest_at p (bal (state_after q base j))).
    apply interest_at_mono; [exact Hvalid | apply more_extra_bal].
  - apply sum_upto_more; [|apply more_extra_tenure].
    intros j. apply round2_nonneg. apply interest_at_nonneg; [exact Hvalid|].
    apply (bal_after_nonneg p base Hvalid).
Qed.

End MoreExtra.



(** ** Insurance *)

Section OtherInsurance.

Variable p : LoanParameters.
Variable ins : Q.
Variable base : Q.

Let q := with_insurance p ins.

Lemma other_insurance_state (i : nat) :
  bal (state_after q base i) = bal (state_after p base i) /\
  d (state_after q base i) = d (state_after p base i).
Proof.
  induction i as [|i [IHb IHd]]; [split; reflexivity|].
  cbn [state_after]. rewrite !body_eq. cbn [bal d]. rewrite IHb, IHd.
  split; reflexivity.
Qed.

Lemma other_insurance_tenure : tenure q base = tenure p base.
Proof.
  destruct (run_prefix p base) as (Hm & _ & _ & _ & Hend).
  destruct (run_prefix q base) as (Hmq & _ & _ & _ & Hendq).
  change (n_periods q) with (n_periods p) in Hmq, Hendq.
  apply Nat.le_antisymm.
  - destruct (Nat.eq_dec (tenure p base) (Z.to_nat (n_periods p))) as [E | NE]; [lia|].
    apply tenure_le; [lia|].
    rewrite (proj1 (other_insurance_state _)). apply Hend. lia.
  - destruct (Nat.eq_dec (tenure q base) (Z.to_nat (n_periods p))) as [E | NE]; [lia|].
    apply tenure_le; [lia|].
    rewrite <- (proj1 (other_insurance_state _)). apply Hendq. lia.
Qed.

Lemma other_insurance_record (i : nat) :
  let a := record_at p base (S i) in
  let b := record_at q base (S i) in
  Period b = Period a /\ Date b = Date a /\ Payment b = Payment a /\
  Principal b = Principal a /\ Interest b = Interest a /\ Extra b = Extra a /\
  Balance b = Balance a /\ Insurance b = round2 ins.
Proof.
  destruct (other_insurance_state i) as [Hb Hd].
  unfold record_at, row_of. cbn [pred Period Date Payment Principal Interest Extra
                                 Balance Insurance].
  rewrite Hb, Hd. repeat split; reflexivity.
Qed.

End OtherInsurance.

(** The insurance is added to what is paid and to nothing else: with another
    insurance amount the schedule has the same length and the same periods,
    dates, payments, principal, interest, extra and balance columns, and the
    same interest and extra totals. *)
Theorem insurance_leaves_amortization (p : LoanParameters) (ins : Q)
    (rows : list Row) (summ : Summary) :
  compute_schedule p = Some (rows, summ) ->
  exists rows' summ',
    compute_schedule (with_insurance p ins) = Some (rows', summ') /\
    length rows' = length rows /\
    (forall i a b, nth_error rows i = Some a -> nth_error rows' i = Some b ->
       Period b = Period a /\ Date b = Date a /\ Payment b = Payment a /\
       Principal b = Principal a /\ Interest b = Interest a /\ Extra b = Extra a /\
       Balance b = Balance a /\ Insurance b = round2 ins) /\
    Tenure summ' = Tenure summ /\
    Total_Interest summ' == Total_Interest summ /\
    Total_Extra summ' == Total_Extra summ.
Proof.
  intros H.
  destruct (compute_schedule_Some p rows summ H) as (base & Hb & Hrows & Hsumm).
  set (q := with_insurance p ins).
  assert (Hq : base_payment q = Some base) by exact Hb.
  exists (map (record_at q base) (seq 1 (tenure q base))). eexists.
  split; [apply compute_schedule_eq, Hq|].
  pose proof (other_insurance_tenure p ins base) as HT. fold q in HT.
  destruct (run_prefix p base) as (Hm & _).
  assert (H1 : (1 <= tenure p base)%nat) by lia.
  assert (H1q : (1 <= tenure q base)%nat) by lia.
  destruct (summarize_totals p _ (records_nonempty p base _ H1)) as (_ & _ & _ & _ & HTen).
  destruct (summarize_totals q _ (records_nonempty q base _ H1q)) as (_ & _ & _ & _ & HTenq).
  destruct (summary_totals_exact p base _ H1) as (HI & HX & _).
  destruct (summary_totals_exact q base _ H1q) as (HIq & HXq & _).
  cbv zeta in HI, HX, HIq, HXq.
  subst rows summ q.
  split; [|split; [|split; [|split]]].
  - rewrite !length_map, !length_seq. exact HT.
  - intros i a b Ha Hb'.
    apply nth_error_records in Ha. destruct Ha as [_ ->].
    apply nth_error_records in Hb'. destruct Hb' as [_ ->].
    apply (other_insurance_record p ins base i).
  - rewrite HTen, HTenq, !length_map, !length_seq, HT. reflexivity.
  - rewrite HI, HIq, !col_sum_records, HT.
    apply sum_upto_ext. intros j _.
    destruct (other_insurance_record p ins base j) as (_ & _ & _ & _ & -> & _).
    reflexivity.
  - rewrite HX, HXq, !col_sum_records, HT.
    apply sum_upto_ext. intros j _.
    destruct (other_insurance_record p ins base j) as (_ & _ & _ & _ & _ & -> & _).
    reflexivity.
Qed.

Lemma insurance_leaves_amortization_witness :
  exists rows summ rows' summ',
    compute_schedule zero_rate_loan_extra = Some (rows, summ) /\
    compute_schedule (with_insurance zero_rate_loan_extra 25) = Some (rows', summ') /\
    length rows' = length rows /\
    Total_Extra summ' == Total_Extra summ /\
    Total_Insurance summ' == 75.
Proof.
  eexists. eexists.
  destruct (insurance_leaves_amortization zero_rate_loan_extra 25 _ _ eq_refl)
    as (rows' & summ' & Hc & Hl & _ & _ & _ & HX).
  exists rows', summ'.
  split; [reflexivity|]. split; [exact Hc|]. split; [exact Hl|]. split; [exact HX|].
  assert (E : compute_schedule (with_insurance zero_rate_loan_extra 25)
              = Some (rows', summ')) by exact Hc.
  vm_compute in E. injection E as <- <-. reflexivity.
Defined.

(** ** The components of a period *)

(** A period that leaves something owed was paid as scheduled: its
    principal was not clamped by the balance. *)
Lemma principal_unclamped p base b :
  0 <= extra_per_period p -> 0 < next_bal p base b ->
  principal_at p base b == base - interest_at p b.
Proof.
  intros He Hpos. unfold principal_at.
  destruct (Qlt_le_dec b (base - interest_at p b)) as [Hlt | Hle].
  - exfalso. rewrite (next_bal_scheduled p base b He) in Hpos.
    rewrite Q.max_l in Hpos by lra. lra.
  - apply Q.min_l. exact Hle.
Qed.

Section Components.

Variable p : LoanParameters.
Variable base : Q.
Hypothesis Hvalid : valid_parameters p.
Hypothesis Hbase : base_payment p = Some base.

Let B (i : nat) : Q := bal (state_after p base i).

Lemma principal_at_bounds (i : nat) :
  0 <= principal_at p base (B i) /\
  principal_at p base (B i) <= base /\
  principal_at p base (B i) <= B i.
Proof.
  pose proof (bal_after_nonneg p base Hvalid i) as H0.
  pose proof (bal_after_le_P p base Hvalid Hbase i) as HP.
  pose proof (interest_le_base p base Hvalid Hbase _ HP) as Hi.
  pose proof (interest_at_nonneg p _ Hvalid H0) as Hn.
  cbv beta zeta in H0, HP. fold (B i) in H0, HP, Hi, Hn.
  unfold principal_at. split; [|split].
  - apply Q.min_glb; lra.
  - eapply Qle_trans; [apply Q.le_min_l|]. lra.
  - apply Q.le_min_r.
Qed.

Lemma extra_at_bounds (i : nat) :
  0 <= extra_at p base (B i) /\
  extra_at p base (B i) <= extra_per_period p /\
  extra_at p base (B i) <= B i.
Proof.
  destruct (principal_at_bounds i) as (H0 & _ & _).
  pose proof (extra_at_le p base (B i)) as Hle.
  pose proof (extra_nonneg p Hvalid) as He.
  split; [|split].
  - unfold extra_at. apply Q.min_glb; [exact He | apply Q.le_max_l].
  - unfold extra_at. apply Q.le_min_l.
  - lra.
Qed.

(** Interest falls (or stays), and before the last period the principal
    part rises (or stays). *)
Lemma interest_falls (i : nat) :
  interest_at p (B (S i)) <= interest_at p (B i).
Proof.
  apply interest_at_mono; [exact Hvalid|].
  apply (bal_after_step p base Hvalid Hbase).
Qed.

Lemma principal_rises (i : nat) :
  0 < B (S (S i)) ->
  principal_at p base (B i) <= principal_at p base (B (S i)).
Proof.
  intros Hpos. unfold B in Hpos. rewrite bal_state_after_S in Hpos.
  rewrite (principal_unclamped p base (B (S i)) (extra_nonneg p Hvalid) Hpos).
  pose proof (interest_falls i).
  unfold principal_at at 1.
  eapply Qle_trans; [apply Q.le_min_l|]. lra.
Qed.

End Components.





(** ** The balance column in closed form *)

Lemma scheduled_bal_textbook p base i :
  valid_parameters p -> base_payment p = Some base ->
  scheduled_bal p base i == textbook_balance p (Z.of_nat i).
Proof.
  intros Hv Hb. unfold textbook_balance. cbv zeta.
  pose proof (valid_n p) as Hn.
  destruct (flat_interest p) eqn:Hf; cbn [orb].
  - rewrite (scheduled_bal_linear p base Hv Hb i (or_introl Hf)). field. lra.
  - destruct (Qeq_bool (rate p) 0) eqn:Hz.
    + apply Qeq_bool_iff in Hz.
      rewrite (scheduled_bal_linear p base Hv Hb i (or_intror Hz)). field. lra.
    + assert (Hnz : ~ rate p == 0).
      { intros H. apply Qeq_bool_iff in H. congruence. }
      rewrite (scheduled_bal_annuity p base Hv Hb i Hf Hnz).
      destruct (annuity_base p base Hv Hb Hf Hnz) as (Hrpos & Hg & He).
      set (X := (1 + rate p) ^ n_periods p) in *.
      set (Y := (1 + rate p) ^ Z.of_nat i) in *.
      assert (Hbase : base == principal_with_fees p * rate p * X / (X - 1)).
      { apply Qmult_inj_r with (z := X - 1); [lra|]. rewrite He. field. lra. }
      rewrite Hbase. field. split; lra.
Qed.



(** ** Nothing lent *)

Lemma zero_principal_base p base :
  valid_parameters p -> base_payment p = Some base ->
  principal_with_fees p == 0 -> base == 0.
Proof.
  intros Hv Hb HP. pose proof (valid_n p) as Hn.
  destruct (flat_interest p) eqn:Hf.
  - pose proof (flat_principal_part p base Hv Hb Hf) as H.
    rewrite HP in H. rewrite <- (Qplus_0_r base).
    setoid_replace 0 with (- (0 * rate p)) at 1 by ring.
    rewrite H. field. lra.
  - destruct (Qeq_dec (rate p) 0) as [Hz | Hnz].
    + rewrite (zero_rate_base p base Hb Hf Hz), HP. field. lra.
    + destruct (annuity_base p base Hv Hb Hf Hnz) as (_ & Hg & He).
      rewrite HP in He.
      apply Qmult_inj_r with (z := (1 + rate p) ^ n_periods p - 1); [lra|].
      rewrite He. ring.
Qed.



(** * The payment selection in binary64 *)

(** The guard [r == 0] does not protect the annuity division.  A period
    rate that is not zero but so small that [1 + r] rounds to 1 passes the
    guard, [(1 + r) ** n] is then [1 ** n = 1], the denominator
    [(1 + r) ** n - 1] is 0 and the division raises [ZeroDivisionError]. *)
Theorem binary64_tiny_rate_division_by_zero
    (pow : float -> Z -> Binary64.outcome float) (a : Binary64.PaymentArguments)
    (r : float) :
  Binary64.flat_interest a = false ->
  Binary64.rate a = Binary64.Returned r ->
  (r =? 0)%float = false ->
  (1 + r)%float = 1%float ->
  pow 1%float (Binary64.n_periods a) = Binary64.Returned 1%float ->
  Binary64.base_payment pow a = Binary64.ZeroDivisionError.
Proof.
  intros Hf Hr Hnz H1 Hpow.
  unfold Binary64.base_payment. cbv zeta. rewrite Hr. cbn [Binary64.bind].
  rewrite Hf, Hnz, H1, Hpow. cbn [Binary64.bind]. unfold Binary64.div.
  replace ((1 - 1 =? 0)%float) with true by reflexivity.
  reflexivity.
Qed.

Lemma binary64_tiny_rate_division_by_zero_witness :
  Binary64.flat_interest Binary64.tiny_rate_loan = false /\
  Binary64.rate Binary64.tiny_rate_loan = Binary64.Returned 0x1.ebe9c5db3c61fp-61%float /\
  (0x1.ebe9c5db3c61fp-61 =? 0)%float = false /\
  (1 + 0x1.ebe9c5db3c61fp-61)%float = 1%float /\
  Binary64.pow_mul 1%float (Binary64.n_periods Binary64.tiny_rate_loan)
    = Binary64.Returned 1%float /\
  Binary64.base_payment Binary64.pow_mul Binary64.tiny_rate_loan
    = Binary64.ZeroDivisionError.
Proof.
  split; [reflexivity|]. split; [vm_compute; reflexivity|].
  split; [reflexivity|]. split; [reflexivity|]. split; [reflexivity|].
  apply (binary64_tiny_rate_division_by_zero Binary64.pow_mul Binary64.tiny_rate_loan
           0x1.ebe9c5db3c61fp-61%float);
    vm_compute; reflexivity.
Defined.

(** * The call made by the page *)

Lemma page_call_valid (w : Sidebar) : widget_ranges w -> valid_parameters (page_call w).
Proof.
  intros (HA & HY & HE & HI & HF & HFp).
  unfold valid_parameters, page_call. cbn.
  split; [apply Q.le_max_l|]. split; [apply HA|]. split; [lia|].
  split; [destruct (w_add_extra w); [exact HE | apply Qle_refl]|].
  split; [destruct (w_add_fees w); [exact HF | apply Qle_refl]|].
  split; [destruct (w_add_fees w); [exact HFp | apply Qle_refl]|].
  destruct (w_add_ins w); [exact HI | apply Qle_refl].
Qed.



(** * A term of no years *)

Lemma schedule_base p : 0 <= annual_rate_pct p -> exists base, base_payment p = Some base.
Proof.
  intros HA. pose proof (inject_Z_n_periods p) as Hn.
  pose proof (rate_nonneg p HA) as Hr.
  unfold base_payment. cbv zeta.
  destruct (flat_interest p).
  - eexists. apply div_checked_Some. lra.
  - destruct (Qeq_bool (rate p) 0) eqn:E.
    + eexists. apply div_checked_Some. lra.
    + eexists. apply div_checked_Some.
      assert (Hr0 : ~ rate p == 0).
      { intros H. apply Qeq_bool_iff in H. congruence. }
      assert (0 < rate p).
      { apply Qle_lteq in Hr. destruct Hr as [Hr | Hr]; [assumption|].
        symmetry in Hr. contradiction. }
      pose proof (growth_gt_1 (rate p) (n_periods p) H (n_periods_pos p)). lra.
Qed.

Lemma n_periods_nonpositive_years p : (years p <= 0)%Z -> n_periods p = 1%Z.
Proof.
  intros H. unfold n_periods. pose proof (periods_per_year_pos (compounding p)). nia.
Qed.



(** * The chat page *)

Lemma string_append_nil_r (s : string) : (s ++ "")%string = s.
Proof. induction s as [|a s IH]; [reflexivity|]. cbn. rewrite IH. reflexivity. Qed.

Lemma string_append_assoc (a b c : string) :
  ((a ++ b) ++ c)%string = (a ++ (b ++ c))%string.
Proof. induction a as [|x a IH]; [reflexivity|]. cbn. rewrite IH. reflexivity. Qed.

Lemma chat_init_session_well_formed (s : Chat.Session) :
  s = Chat.fresh \/ Chat.well_formed s -> Chat.well_formed (Chat.init_session s).
Proof.
  intros [-> | (sys & talk & Hm & Ht & Hc)].
  - exists "You are a helpful assistant."%string, []. cbn.
    split; [reflexivity|]. split; [constructor | discriminate].
  - unfold Chat.init_session. rewrite Hm.
    destruct (Chat.client s) as [c|] eqn:Ec; [|contradiction].
    exists sys, talk. split; [exact Hm|]. split; [exact Ht|]. rewrite Ec. discriminate.
Qed.

Lemma chat_init_session_idem (s : Chat.Session) :
  Chat.well_formed s -> Chat.init_session s = s.
Proof.
  intros (sys & talk & Hm & _ & Hc). unfold Chat.init_session. rewrite Hm.
  destruct (Chat.client s); [reflexivity | contradiction].
Qed.

(** The text gathered from a stream is the text of its chunks, and every
    text the placeholder showed is a beginning of it. *)
Lemma chat_receive_text (chunks : list (option string)) : forall text seen,
  fst (Chat.receive chunks text seen) = (text ++ Chat.stream_text chunks)%string.
Proof.
  induction chunks as [|chunk chunks IH]; intros text seen.
  - cbn. symmetry. apply string_append_nil_r.
  - cbn [Chat.receive Chat.stream_text]. destruct chunk as [c|]; [|apply IH].
    unfold Chat.has_text. destruct (String.eqb_spec c ""%string) as [-> | Hne]; cbn [negb].
    + rewrite IH. reflexivity.
    + rewrite IH. apply string_append_assoc.
Qed.

Lemma chat_receive_seen (chunks : list (option string)) : forall text seen t,
  In t (snd (Chat.receive chunks text seen)) ->
  In t seen \/
  exists rest, (text ++ Chat.stream_text chunks)%string = (t ++ rest)%string.
Proof.
  induction chunks as [|chunk chunks IH]; intros text seen t Hin.
  - left. exact Hin.
  - cbn [Chat.receive Chat.stream_text] in *. destruct chunk as [c|]; [|apply IH, Hin].
    unfold Chat.has_text in Hin.
    destruct (String.eqb_spec c ""%string) as [-> | Hne]; cbn [negb] in Hin.
    + apply IH in Hin. exact Hin.
    + apply IH in Hin. destruct Hin as [Hin | [rest Hr]].
      * apply in_app_or in Hin. destruct Hin as [Hin | [<- | []]].
        -- left. exact Hin.
        -- right. exists (Chat.stream_text chunks). symmetry. apply string_append_assoc.
      * right. exists rest. rewrite <- Hr. symmetry. apply string_append_assoc.
Qed.

Lemma chat_talk_filter (sys : string) (talk : list Chat.Message) :
  Forall (fun m => Chat.role m = "user"%string \/ Chat.role m = "assistant"%string) talk ->
  filter (fun m => negb (String.eqb (Chat.role m) "system"%string))
    ({| Chat.role := "system"%string; Chat.content := sys |} :: talk) = talk.
Proof.
  intros Ht. cbn [filter Chat.role]. rewrite String.eqb_refl. cbn [negb].
  induction Ht as [|m talk [Hm | Hm] _ IH]; [reflexivity| |];
    cbn [filter]; rewrite Hm, IH; reflexivity.
Qed.

Lemma chat_map_copy (msgs : list Chat.Message) :
  map (fun m => {| Chat.role := Chat.role m; Chat.content := Chat.content m |}) msgs = msgs.
Proof.
  induction msgs as [|[r c] msgs IH]; [reflexivity|]. cbn. rewrite IH. reflexivity.
Qed.

Lemma chat_run_well_formed (key : string) (w : Chat.Widgets) (s : Chat.Session) :
  s = Chat.fresh \/ Chat.well_formed s ->
  exists s' page, Chat.run key w s = Some (s', page) /\ Chat.well_formed s'.
Proof.
  intros Hs. pose proof (chat_init_session_well_formed s Hs) as Hwf.
  unfold Chat.run. cbv zeta.
  set (s0 := Chat.init_session s) in *.
  destruct Hwf as (sys & talk & Hm & Ht & Hc). rewrite Hm.
  destruct (Chat.update_clicked w).
  { eexists. eexists. split; [reflexivity|].
    exists (Chat.system_prompt w), talk. cbn. repeat split; assumption. }
  destruct (Chat.clear_clicked w).
  { eexists. eexists. split; [reflexivity|].
    exists (Chat.system_prompt w), []. cbn. repeat split; [constructor | assumption]. }
  assert (Hwf0 : Chat.well_formed s0) by (exists sys, talk; repeat split; assumption).
  destruct (Chat.user_input w) as [text|]; [|eexists; eexists; split; [reflexivity | exact Hwf0]].
  destruct (String.eqb text ""%string); [eexists; eexists; split; [reflexivity | exact Hwf0]|].
  unfold Chat.get_client.
  destruct (Chat.client s0) as [[c|]|] eqn:Ec; [| |contradiction].
  - unfold Chat.append_message. rewrite Hm. cbn [Chat.messages Chat.client].
    destruct (Chat.service w _) as [chunks | chunks].
    + destruct (Chat.receive chunks ""%string []) as [txt seen].
      cbn [Chat.messages Chat.client].
      eexists. eexists. split; [reflexivity|].
      eexists. eexists. cbn [Chat.messages Chat.client].
      split; [rewrite <- !app_assoc; reflexivity|]. split; [|rewrite Ec; discriminate].
      apply Forall_app. split; [exact Ht|].
      constructor; [left; reflexivity|]. constructor; [right; reflexivity | constructor].
    + destruct (Chat.receive chunks ""%string []) as [txt seen].
      eexists. eexists. split; [reflexivity|].
      eexists. eexists. cbn [Chat.messages Chat.client].
      split; [reflexivity|]. split; [|rewrite Ec; discriminate].
      apply Forall_app. split; [exact Ht|].
      constructor; [left; reflexivity | constructor].
  - destruct (String.eqb key ""%string).
    + eexists. eexists. split; [reflexivity | exact Hwf0].
    + unfold Chat.append_message. cbn [Chat.messages Chat.client]. rewrite Hm.
      cbn [Chat.messages Chat.client].
      destruct (Chat.service w _) as [chunks | chunks].
      * destruct (Chat.receive chunks ""%string []) as [txt seen].
        cbn [Chat.messages Chat.client].
        eexists. eexists. split; [reflexivity|].
        eexists. eexists. cbn [Chat.messages Chat.client].
        split; [rewrite <- !app_assoc; reflexivity|]. split; [|discriminate].
        apply Forall_app. split; [exact Ht|].
        constructor; [left; reflexivity|]. constructor; [right; reflexivity | constructor].
      * destruct (Chat.receive chunks ""%string []) as [txt seen].
        eexists. eexists. split; [reflexivity|].
        eexists. eexists. cbn [Chat.messages Chat.client].
        split; [reflexivity|]. split; [|discriminate].
        apply Forall_app. split; [exact Ht|].
        constructor; [left; reflexivity | constructor].
Qed.

(** From a fresh session every sequence of interactions runs to its end
    without an exception of the script ([messages[0]] always exists, no key
    of the session state is read before it is set), and the history then is
    one system message followed by user and assistant messages only. *)
Theorem chat_runs_keep_history_shape (key : string) (ws : list Chat.Widgets) :
  exists s, Chat.run_all key ws Chat.fresh = Some s /\
            Chat.well_formed (Chat.init_session s).
Proof.
  assert (H : forall s, s = Chat.fresh \/ Chat.well_formed s ->
            exists s', Chat.run_all key ws s = Some s' /\
                       (s' = Chat.fresh \/ Chat.well_formed s')).
  { induction ws as [|w ws IH]; intros s Hs.
    - exists s. split; [reflexivity | exact Hs].
    - cbn [Chat.run_all].
      destruct (chat_run_well_formed key w s Hs) as (s1 & page & -> & Hwf).
      apply IH. right. exact Hwf. }
  destruct (H Chat.fresh (or_introl eq_refl)) as (s & Hr & Hs).
  exists s. split; [exact Hr|]. apply chat_init_session_well_formed, Hs.
Qed.

(** One question.  On a well-formed session, with no button clicked, a
    non-empty input and a non-empty key: the page shows the conversation so
    far and the question; the service is asked with the whole history, the
    question included; every text the placeholder shows is a beginning of
    the streamed text; when the stream ends the history grows by the
    question and the answer (the streamed text, possibly empty), when it
    raises the history grows by the question only and the error is shown;
    the client is the one of the session, made from the key if there was
    none. *)
Theorem chat_turn (key : string) (w : Chat.Widgets) (s : Chat.Session)
    (msgs : list Chat.Message) (text : string) :
  Chat.well_formed s ->
  Chat.messages s = Some msgs ->
  Chat.update_clicked w = false ->
  Chat.clear_clicked w = false ->
  Chat.user_input w = Some text ->
  text <> ""%string ->
  key <> ""%string ->
  let question := {| Chat.role := "user"%string; Chat.content := text |} in
  let reply := Chat.service w (msgs ++ [question]) in
  exists s' page,
    Chat.run key w s = Some (s', page) /\
    Chat.shown page = tl msgs ++ [question] /\
    (forall t, In t (Chat.placeholder page) ->
       exists rest, Chat.stream_text (Chat.chunks_of reply) = (t ++ rest)%string) /\
    match reply with
    | Chat.Ends chunks =>
        Chat.messages s'
        = Some (msgs ++ [question;
                         {| Chat.role := "assistant"%string;
                            Chat.content := Chat.stream_text chunks |}]) /\
        Chat.error_shown page = false
    | Chat.Raises _ =>
        Chat.messages s' = Some (msgs ++ [question]) /\
        Chat.error_shown page = true
    end /\
    exists c, Chat.client s' = Some (Some c) /\
              (forall c0, Chat.client s = Some (Some c0) -> c = c0) /\
              (Chat.client s = Some None -> c = Chat.Groq key).
Proof.
  intros Hwf Hmsgs Hu Hcl Hin Htext Hkey question reply.
  unfold Chat.run. cbv zeta. rewrite (chat_init_session_idem s Hwf).
  destruct Hwf as (sys & talk & Hm & Ht & Hc).
  rewrite Hm in Hmsgs. injection Hmsgs as <-.
  rewrite Hm, Hu, Hcl, Hin.
  apply String.eqb_neq in Htext, Hkey. rewrite Htext.
  rewrite (chat_talk_filter sys talk Ht).
  assert (Hseen : forall chunks t,
            In t (snd (Chat.receive chunks ""%string [])) ->
            exists rest, Chat.stream_text chunks = (t ++ rest)%string).
  { intros chunks t Hin'. apply chat_receive_seen in Hin'.
    destruct Hin' as [[] | H]. exact H. }
  assert (Htxt : forall chunks,
            fst (Chat.receive chunks ""%string []) = Chat.stream_text chunks).
  { intros chunks. apply chat_receive_text. }
  unfold Chat.get_client.
  destruct (Chat.client s) as [[c|]|] eqn:Ec; [| |contradiction].
  - unfold Chat.append_message. rewrite Hm. cbn [Chat.messages Chat.client].
    rewrite chat_map_copy. fold question. fold reply.
    destruct reply as [chunks | chunks] eqn:Er.
    + specialize (Hseen chunks). specialize (Htxt chunks).
      destruct (Chat.receive chunks ""%string []) as [txt seen].
      cbn [fst snd] in *. cbn [Chat.messages Chat.client].
      eexists. eexists. split; [reflexivity|].
      cbn [Chat.shown Chat.placeholder Chat.error_shown Chat.messages Chat.client
           Chat.chunks_of tl].
      split; [reflexivity|]. split; [exact Hseen|]. split.
      * split; [|reflexivity]. rewrite Htxt, <- app_assoc. reflexivity.
      * exists c. rewrite Ec. split; [reflexivity|]. split; [|discriminate].
        intros c0 H0. congruence.
    + specialize (Hseen chunks).
      destruct (Chat.receive chunks ""%string []) as [txt seen].
      cbn [fst snd] in *.
      eexists. eexists. split; [reflexivity|].
      cbn [Chat.shown Chat.placeholder Chat.error_shown Chat.messages Chat.client
           Chat.chunks_of tl].
      split; [reflexivity|]. split; [exact Hseen|]. split.
      * split; reflexivity.
      * exists c. rewrite Ec. split; [reflexivity|]. split; [|discriminate].
        intros c0 H0. congruence.
  - rewrite Hkey.
    unfold Chat.append_message. cbn [Chat.messages Chat.client]. rewrite Hm.
    cbn [Chat.messages Chat.client].
    rewrite chat_map_copy. fold question. fold reply.
    destruct reply as [chunks | chunks] eqn:Er.
    + specialize (Hseen chunks). specialize (Htxt chunks).
      destruct (Chat.receive chunks ""%string []) as [txt seen].
      cbn [fst snd] in *. cbn [Chat.messages Chat.client].
      eexists. eexists. split; [reflexivity|].
      cbn [Chat.shown Chat.placeholder Chat.error_shown Chat.messages Chat.client
           Chat.chunks_of tl].
      split; [reflexivity|]. split; [exact Hseen|]. split.
      * split; [|reflexivity]. rewrite Htxt, <- app_assoc. reflexivity.
      * exists (Chat.Groq key). split; [reflexivity|]. split; [discriminate|].
        reflexivity.
    + specialize (Hseen chunks).
      destruct (Chat.receive chunks ""%string []) as [txt seen].
      cbn [fst snd] in *.
      eexists. eexists. split; [reflexivity|].
      cbn [Chat.shown Chat.placeholder Chat.error_shown Chat.messages Chat.client
           Chat.chunks_of tl].
      split; [reflexivity|]. split; [exact Hseen|]. split.
      * split; reflexivity.
      * exists (Chat.Groq key). split; [reflexivity|]. split; [discriminate|].
        reflexivity.
Qed.

Lemma chat_turn_witness :
  exists s' page,
    Chat.run "key"%string Chat.greeting Chat.opened = Some (s', page) /\
    Chat.messages s'
    = Some [ {| Chat.role := "system"%string;
                Chat.content := "You are a helpful assistant."%string |};
             {| Chat.role := "user"%string; Chat.content := "hi"%string |};
             {| Chat.role := "assistant"%string; Chat.content := "Hello"%string |} ] /\
    Chat.placeholder page = ["Hel"%string; "Hello"%string] /\
    Chat.client s' = Some (Some (Chat.Groq "key"%string)).
Proof.
  assert (Hwf : Chat.well_formed Chat.opened).
  { exists "You are a helpful assistant."%string, [].
    split; [reflexivity|]. split; [constructor | discriminate]. }
  destruct (chat_turn "key"%string Chat.greeting Chat.opened
              [ {| Chat.role := "system"%string;
                   Chat.content := "You are a helpful assistant."%string |} ]
              "hi"%string Hwf eq_refl eq_refl eq_refl eq_refl)
    as (s' & page & Hrun & _); [discriminate | discriminate |].
  exists s', page. split; [exact Hrun|].
  vm_compute in Hrun. injection Hrun as <- <-.
  split; [reflexivity|]. split; reflexivity.
Defined.

(** * Currency display *)

Lemma round_half_even_0 : round_half_even 0 = 0%Z.
Proof. reflexivity. Qed.

Lemma round_half_even_sign (x : Q) :
  (0 <= x -> (0 <= round_half_even x)%Z) /\ (x <= 0 -> (round_half_even x <= 0)%Z).
Proof.
  split; intros H; rewrite <- round_half_even_0; apply round_half_even_mono; exact H.
Qed.

Lemma digit_not_comma a : digit a -> Ascii.eqb a ","%char = false.
Proof.
  unfold digit. cbn [In].
  intros [<- | [<- | [<- | [<- | [<- | [<- | [<- | [<- | [<- | [<- | []]]]]]]]]]];
    reflexivity.
Qed.

Lemma numeral_digits (d : Decimal.uint) :
  Forall digit (list_ascii_of_string (DecimalString.NilEmpty.string_of_uint d)).
Proof.
  induction d; cbn [DecimalString.NilEmpty.string_of_uint list_ascii_of_string];
    constructor; try assumption; unfold digit; cbn [In]; tauto.
Qed.

Lemma N_to_uint_nonnil (n : N) : N.to_uint n <> Decimal.Nil.
Proof.
  destruct n as [|p]; [discriminate|]. apply DecimalPos.Unsigned.to_uint_nonnil.
Qed.

Lemma numeral_reads_back (n : N) :
  DecimalString.NilZero.uint_of_string (numeral n) = Some (N.to_uint n).
Proof.
  unfold numeral. pose proof (N_to_uint_nonnil n) as Hn.
  rewrite <- (DecimalString.NilZero.usu _ Hn).
  destruct (N.to_uint n); [contradiction | reflexivity ..].
Qed.

(** Induction three elements at a time. *)
Lemma list_ind3 {A : Type} (P : list A -> Prop) :
  P [] -> (forall a, P [a]) -> (forall a b, P [a; b]) ->
  (forall a b c rest, P rest -> P (a :: b :: c :: rest)) ->
  forall l, P l.
Proof.
  intros H0 H1 H2 H3.
  assert (H : forall l, P l /\ (forall a, P (a :: l)) /\ (forall a b, P (a :: b :: l))).
  { induction l as [|x l (IH0 & IH1 & IH2)].
    - repeat split; intros; auto.
    - split; [apply IH1|]. split; [intros a; apply IH2|]. intros a b. apply H3, IH0. }
  intros l. apply H.
Qed.

Lemma commas_rev_cons3 {a b c : ascii} (x : ascii) (rest : list ascii) :
  commas_rev (a :: b :: c :: x :: rest)
  = a :: b :: c :: ","%char :: commas_rev (x :: rest).
Proof. reflexivity. Qed.

(** Taking the commas out gives the digits back. *)
Lemma commas_rev_filter (l : list ascii) :
  Forall digit l ->
  filter (fun a => negb (Ascii.eqb a ","%char)) (commas_rev l) = l.
Proof.
  induction l as [| a | a b | a b c rest IH] using list_ind3; intros Hd.
  - reflexivity.
  - inversion Hd as [|? ? Ha _]; subst. cbn. rewrite (digit_not_comma a Ha). reflexivity.
  - inversion Hd as [|? ? Ha Hd1]; subst. inversion Hd1 as [|? ? Hb _]; subst.
    cbn. rewrite (digit_not_comma a Ha), (digit_not_comma b Hb). reflexivity.
  - inversion Hd as [|? ? Ha Hd1]; subst. inversion Hd1 as [|? ? Hb Hd2]; subst.
    inversion Hd2 as [|? ? Hc Hd3]; subst.
    destruct rest as [|x rest].
    + cbn. rewrite (digit_not_comma a Ha), (digit_not_comma b Hb), (digit_not_comma c Hc).
      reflexivity.
    + rewrite commas_rev_cons3. cbn [filter].
      rewrite (digit_not_comma a Ha), (digit_not_comma b Hb), (digit_not_comma c Hc).
      cbn [negb]. change (Ascii.eqb ","%char ","%char) with true. cbn [negb].
      rewrite (IH Hd3). reflexivity.
Qed.

(** A comma stands at every fourth place from the right and nowhere else;
    in particular never in front. *)
Lemma commas_rev_places (l : list ascii) :
  Forall digit l ->
  forall i a, nth_error (commas_rev l) i = Some a ->
    (a = ","%char <-> (i mod 4 = 3)%nat) /\ (a <> ","%char -> digit a).
Proof.
  induction l as [| a0 | a0 b0 | a0 b0 c0 rest IH] using list_ind3; intros Hd i a Hi.
  - destruct i; discriminate.
  - inversion Hd as [|? ? Ha _]; subst.
    destruct i as [|i]; [|destruct i; discriminate].
    cbn in Hi. injection Hi as <-. pose proof (digit_not_comma _ Ha) as Hn.
    apply Ascii.eqb_neq in Hn. split; [split; [contradiction | discriminate] | auto].
  - inversion Hd as [|? ? Ha Hd1]; subst. inversion Hd1 as [|? ? Hb _]; subst.
    pose proof (digit_not_comma _ Ha) as Hna. apply Ascii.eqb_neq in Hna.
    pose proof (digit_not_comma _ Hb) as Hnb. apply Ascii.eqb_neq in Hnb.
    destruct i as [|[|i]]; cbn in Hi; [injection Hi as <- | injection Hi as <- |
                                        destruct i; discriminate];
      (split; [split; [contradiction | discriminate] | auto]).
  - inversion Hd as [|? ? Ha Hd1]; subst. inversion Hd1 as [|? ? Hb Hd2]; subst.
    inversion Hd2 as [|? ? Hc Hd3]; subst.
    pose proof (digit_not_comma _ Ha) as Hna. apply Ascii.eqb_neq in Hna.
    pose proof (digit_not_comma _ Hb) as Hnb. apply Ascii.eqb_neq in Hnb.
    pose proof (digit_not_comma _ Hc) as Hnc. apply Ascii.eqb_neq in Hnc.
    destruct rest as [|x rest].
    + destruct i as [|[|[|i]]]; cbn in Hi;
        [injection Hi as <- | injection Hi as <- | injection Hi as <- |
         destruct i; discriminate];
        (split; [split; [contradiction | discriminate] | auto]).
    + rewrite commas_rev_cons3 in Hi.
      destruct i as [|[|[|[|i]]]]; cbn [nth_error] in Hi.
      * injection Hi as <-. split; [split; [contradiction | discriminate] | auto].
      * injection Hi as <-. split; [split; [contradiction | discriminate] | auto].
      * injection Hi as <-. split; [split; [contradiction | discriminate] | auto].
      * injection Hi as <-. split; [split; reflexivity | intros H; contradiction].
      * destruct (IH Hd3 i a Hi) as [Hiff Hdig]. split; [|exact Hdig].
        rewrite Hiff. replace (S (S (S (S i)))) with (i + 1 * 4)%nat by lia.
        rewrite Nat.Div0.mod_add. reflexivity.
Qed.

Lemma list_ascii_with_commas (s : string) :
  list_ascii_of_string (with_commas s) = rev (commas_rev (rev (list_ascii_of_string s))).
Proof. unfold with_commas. apply list_ascii_of_string_of_list_ascii. Qed.

Lemma without_with_commas (n : N) : without_commas (with_commas (numeral n)) = numeral n.
Proof.
  unfold without_commas. rewrite list_ascii_with_commas, filter_rev.
  rewrite commas_rev_filter.
  - rewrite rev_involutive. apply string_of_list_ascii_of_string.
  - apply Forall_rev. apply numeral_digits.
Qed.

Lemma read_digits_with_commas (n : N) :
  read_digits (with_commas (numeral n)) = Some (Z.of_N n).
Proof.
  unfold read_digits. rewrite without_with_commas, numeral_reads_back.
  rewrite DecimalN.Unsigned.of_to. reflexivity.
Qed.

(** The grouped digits do not begin with a minus sign. *)
Lemma with_commas_no_sign (n : N) (rest : string) :
  with_commas (numeral n) <> String "-" rest.
Proof.
  intros H.
  assert (Hin : In "-"%char (list_ascii_of_string (with_commas (numeral n)))).
  { rewrite H. left. reflexivity. }
  rewrite list_ascii_with_commas in Hin. apply in_rev in Hin.
  apply In_nth_error in Hin. destruct Hin as [i Hi].
  assert (Hd : Forall digit (rev (list_ascii_of_string (numeral n))))
    by (apply Forall_rev, numeral_digits).
  destruct (commas_rev_places _ Hd i _ Hi) as [_ Hdig].
  assert (Hm : digit "-"%char) by (apply Hdig; discriminate).
  unfold digit in Hm. cbn [In] in Hm.
  repeat (destruct Hm as [Hm | Hm]; [discriminate|]). exact Hm.
Qed.


